(** * Pop Watch Tracker: the recommendation page (recommend.js)

    A shallow embedding of the recommendation script and the proofs of its
    functional contract: tag extraction, the filter engine, the two
    selectors, the text extraction of the service answer and the presenter.

    Modelling conventions.
    - A JavaScript string is the list of its code units.  The code units
      are taken below 256 (the Latin-1 range), where [toLowerCase], [trim],
      the default [sort] order and the UTF-8 size of a [Blob] are all given
      exactly by the definitions below.
    - [undefined] and [null] property values are [None]; a missing DOM
      element is [None].
    - Module-level variables ([allShows], [uniqueTags], [filteredCandidates],
      [tagMap]) are the fields of [State], passed explicitly.
    - Exceptions and console or network effects of the asynchronous selector
      are threaded through the monad [M] (a trace of events plus an
      exception result).  [Math.random()], [fetch] and [JSON.parse] are
      supplied by the environment [Env]; the value of [Math.random()] is a
      rational number and its product with the length of the list is taken
      exactly. *)

From Stdlib Require Import ZArith QArith Qround Ascii String List Lia.
From Stdlib Require Import DecimalString.
From stdpp Require Import base option list strings gmap sorting.

Close Scope Q_scope.
Local Open Scope Z_scope.
Local Open Scope nat_scope.
Local Open Scope list_scope.

(** ** JavaScript strings *)

Abbreviation jsstring := (list ascii).

(** A literal: [js "abc"] is the string whose code units are a, b, c. *)
Definition js (s : string) : jsstring := list_ascii_of_string s.

(** The double quote character (code 34). *)
Definition dq : jsstring := [ascii_of_nat 34].

Definition code (c : ascii) : nat := nat_of_ascii c.

(** [String.prototype.toLowerCase] on one code unit of the Latin-1 range:
    A..Z, and the accented capitals U+00C0..U+00DE except the multiplication
    sign U+00D7, move up by 32. *)
Definition lower_unit (c : ascii) : ascii :=
  let n := code c in
  if ((65 <=? n) && (n <=? 90)) || ((192 <=? n) && (n <=? 214))
     || ((216 <=? n) && (n <=? 222))
  then ascii_of_nat (n + 32) else c.

Definition toLowerCase (s : jsstring) : jsstring := map lower_unit s.

(** White space of [String.prototype.trim] in the Latin-1 range:
    TAB, LF, VT, FF, CR, SPACE and NO-BREAK SPACE. *)
Definition is_ws (c : ascii) : bool :=
  let n := code c in
  ((9 <=? n) && (n <=? 13)) || (n =? 32) || (n =? 160).

Fixpoint trimStart (s : jsstring) : jsstring :=
  match s with
  | [] => []
  | c :: s' => if is_ws c then trimStart s' else s
  end.

Definition trimEnd (s : jsstring) : jsstring := rev (trimStart (rev s)).

Definition trim (s : jsstring) : jsstring := trimEnd (trimStart s).

(** A string that does not start with white space. *)
Definition noLeadingWs (s : jsstring) : Prop :=
  match s with
  | [] => True
  | c :: _ => is_ws c = false
  end.

(** [s.split(sep)] for a one-character separator: never empty, the empty
    string splits into one empty piece. *)
Fixpoint split (sep : ascii) (s : jsstring) : list jsstring :=
  match s with
  | [] => [[]]
  | c :: s' =>
      if decide (c = sep) then [] :: split sep s'
      else match split sep s' with
           | [] => [[c]]
           | p :: ps => (c :: p) :: ps
           end
  end.

(** [arr.join(sep)] *)
Fixpoint join (sep : jsstring) (l : list jsstring) : jsstring :=
  match l with
  | [] => []
  | [p] => p
  | p :: ps => p ++ sep ++ join sep ps
  end.

Fixpoint startsWith (s q : jsstring) {struct q} : bool :=
  match q, s with
  | [], _ => true
  | _ :: _, [] => false
  | c :: q', d :: s' => bool_decide (c = d) && startsWith s' q'
  end.

(** [s.includes(q)] *)
Fixpoint includes (s q : jsstring) : bool :=
  startsWith s q ||
  match s with
  | [] => false
  | _ :: s' => includes s' q
  end.

(** The order of the default [Array.prototype.sort]: strings compared code
    unit by code unit. *)
Fixpoint str_compare (a b : jsstring) : comparison :=
  match a, b with
  | [], [] => Eq
  | [], _ :: _ => Lt
  | _ :: _, [] => Gt
  | c :: a', d :: b' =>
      match Nat.compare (code c) (code d) with
      | Eq => str_compare a' b'
      | r => r
      end
  end.

Definition str_lt (a b : jsstring) : Prop := str_compare a b = Lt.

(** ** Arrays: [sort] and [Set] *)

(** [Array.prototype.sort(cmp)] is a stable sort: [a] is placed before [b]
    when [cmp a b < 0], after it when [cmp a b > 0], and elements that
    compare equal keep their order.  For a consistent comparator the result
    of a stable sort is unique; it is computed here by insertion from the
    right. *)
Section Sort.
Context {A : Type} (cmp : A -> A -> Z).

Fixpoint sort_insert (x : A) (l : list A) : list A :=
  match l with
  | [] => [x]
  | y :: l' => if (cmp x y <=? 0)%Z then x :: y :: l'
               else y :: sort_insert x l'
  end.

Fixpoint js_sort (l : list A) : list A :=
  match l with
  | [] => []
  | x :: l' => sort_insert x (js_sort l')
  end.
End Sort.

(** [x] may stand before [y] in the result of [sort(cmp)]. *)
Definition mayPrecede {A : Type} (cmp : A -> A -> Z) (x y : A) : Prop :=
  (cmp x y <= 0)%Z.

(** The comparator of [sort()] without argument. *)
Definition defaultCompare (a b : jsstring) : Z :=
  match str_compare a b with
  | Lt => (-1)%Z
  | Eq => 0%Z
  | Gt => 1%Z
  end.

(** A [Set] of strings keeps its elements in insertion order;
    [Array.from(set)] is that list. *)
Definition set_add (x : jsstring) (s : list jsstring) : list jsstring :=
  if decide (x ∈ s) then s else s ++ [x].

(** ** Data model *)

(** The [tags] property of a show: absent, an array of strings, a string, or
    a value of another kind (a number, an object). *)
Inductive Tags : Type :=
  | TagsAbsent
  | TagsArray (l : list jsstring)
  | TagsString (s : jsstring)
  | TagsOther.

Record Show : Type := mkShow {
  title : jsstring;
  type : jsstring;
  status : jsstring;
  tags : Tags;
  description : option jsstring;
  notes : option jsstring;
  overview : option jsstring;
  posterUrl : option jsstring;
  posterDataUrl : option jsstring;
  (** the time value, in milliseconds since the epoch, of
      [new Date(updatedAt)], for a valid date *)
  updatedAt : option Z
}.

Definition set_tags (t : Tags) (sh : Show) : Show :=
  mkShow (title sh) (type sh) (status sh) t (description sh) (notes sh)
         (overview sh) (posterUrl sh) (posterDataUrl sh) (updatedAt sh).

(** A tag checkbox created by [renderTagFilters]. *)
Record Checkbox : Type := mkCheckbox { checked : bool }.

(** The module-level variables of the script. *)
Record State : Type := mkState {
  allShows : list Show;
  uniqueTags : list jsstring;
  filteredCandidates : list Show;
  tagMap : gmap jsstring Checkbox
}.

(** The values of the three filter controls, read through
    [document.getElementById(...).value]. *)
Record Filters : Type := mkFilters {
  categoryValue : jsstring;
  statusValue : jsstring;
  searchValue : jsstring
}.

(** Truthiness of a string and of an optional string property. *)
Definition truthy_str (s : jsstring) : bool :=
  match s with [] => false | _ => true end.

Definition truthy_opt (o : option jsstring) : bool :=
  match o with Some s => truthy_str s | None => false end.

(** ** Tag extraction *)

(** [tag => tagSet.add(tag.trim().toLowerCase())] *)
Definition normTag (t : jsstring) : jsstring := toLowerCase (trim t).

(** The body of [allShows.forEach(show => ...)] in [extractUniqueTags]. *)
Definition addShowTags (tagSet : list jsstring) (show : Show) : list jsstring :=
  match tags show with
  | TagsArray l => foldl (fun s tag => set_add (normTag tag) s) tagSet l
  | TagsString s =>
      if truthy_str s
      then foldl (fun s tag => set_add (normTag tag) s) tagSet (split "," s)
      else tagSet
  | TagsAbsent | TagsOther => tagSet
  end.

Definition extractTags (shows : list Show) : list jsstring :=
  js_sort defaultCompare (foldl addShowTags [] shows).

Definition extractUniqueTags (st : State) : State :=
  mkState (allShows st) (extractTags (allShows st))
          (filteredCandidates st) (tagMap st).

(** [renderTagFilters]: one fresh, unchecked checkbox per tag, stored in
    [tagMap] under the tag. *)
Definition renderTagFilters (st : State) : State :=
  mkState (allShows st) (uniqueTags st) (filteredCandidates st)
          (foldl (fun m tag => <[tag := mkCheckbox false]> m)
                 (tagMap st) (uniqueTags st)).

(** ** Filter engine *)

(** [uniqueTags.forEach(tag => { if (tagMap[tag] && tagMap[tag].checked)
    selectedTags.push(tag) })] *)
Definition tagChecked (m : gmap jsstring Checkbox) (tag : jsstring) : bool :=
  match m !! tag with
  | Some box => checked box
  | None => false
  end.

Definition selectedTags (st : State) : list jsstring :=
  filter (fun tag => tagChecked (tagMap st) tag = true) (uniqueTags st).

(** The local [showTags] of the filter callback. *)
Definition showTags (show : Show) : list jsstring :=
  match tags show with
  | TagsArray l => map normTag l
  | TagsString s => if truthy_str s then map normTag (split "," s) else []
  | TagsAbsent | TagsOther => []
  end.

(** [show.f && show.f.toLowerCase().includes(searchQuery)] *)
Definition fieldIncludes (f : option jsstring) (searchQuery : jsstring) : bool :=
  match f with
  | Some s => truthy_str s && includes (toLowerCase s) searchQuery
  | None => false
  end.

(** The callback of [allShows.filter]. *)
Definition keepShow (category status' searchQuery : jsstring)
    (selected : list jsstring) (show : Show) : bool :=
  if bool_decide (category ≠ js "all") && bool_decide (type show ≠ category)
  then false
  else if bool_decide (status' ≠ js "all")
          && bool_decide (status show ≠ status')
  then false
  else if negb (bool_decide (selected = []))
          && negb (forallb (fun tag => bool_decide (tag ∈ showTags show))
                           selected)
  then false
  else if truthy_str searchQuery
          && negb (fieldIncludes (Some (title show)) searchQuery)
          && negb (fieldIncludes (description show) searchQuery)
          && negb (fieldIncludes (notes show) searchQuery)
  then false
  else true.

(** [new Date(a.updatedAt || 0)]: a missing (or zero) time stamp is the
    epoch. *)
Definition sortDate (show : Show) : Z :=
  match updatedAt show with
  | Some t => t
  | None => 0%Z
  end.

(** [(a, b) => dateB - dateA] *)
Definition byRecency (a b : Show) : Z := (sortDate b - sortDate a)%Z.

Definition applyFilters (st : State) (f : Filters) : State * list Show :=
  let category := categoryValue f in
  let status' := statusValue f in
  let searchQuery := toLowerCase (searchValue f) in
  let selected := selectedTags st in
  let result :=
    js_sort byRecency
      (List.filter (keepShow category status' searchQuery selected)
                   (allShows st)) in
  (mkState (allShows st) (uniqueTags st) result (tagMap st), result).

(** ** Effects: exceptions and a trace of observable events *)

(** A thrown value: [error.name] and [error.message]. *)
Record Exn : Type := mkExn { exn_name : jsstring; exn_message : jsstring }.

Definition Error (msg : jsstring) : Exn := mkExn (js "Error") msg.
Definition TypeError (msg : jsstring) : Exn := mkExn (js "TypeError") msg.

(** The request handed to [fetch]: the URL, the [Authorization] header and
    the [inputs] field of the JSON body. *)
Record Request : Type := mkRequest {
  url : jsstring;
  authorization : jsstring;
  inputs : jsstring
}.

Inductive Event : Type :=
  | ConsoleWarn (msg : jsstring)
  | ConsoleError (e : Exn)
  | Toast (msg : jsstring)
  | NetworkRequest (req : Request).

(** A computation that may throw and that appends to the trace. *)
Definition M (A : Type) : Type := list Event -> (Exn + A) * list Event.

Definition ret {A} (a : A) : M A := fun tr => (inr a, tr).

Definition throw {A} (e : Exn) : M A := fun tr => (inl e, tr).

Definition bind {A B} (m : M A) (k : A -> M B) : M B :=
  fun tr =>
    match m tr with
    | (inr a, tr') => k a tr'
    | (inl e, tr') => (inl e, tr')
    end.

Definition emit (ev : Event) : M unit := fun tr => (inr tt, tr ++ [ev]).

(** [try { body } catch (error) { handler }] *)
Definition tryCatch {A} (body : M A) (handler : Exn -> M A) : M A :=
  fun tr =>
    match body tr with
    | (inr a, tr') => (inr a, tr')
    | (inl e, tr') => handler e tr'
    end.

(** A step that either throws or yields a value, without effect. *)
Definition lift {A} (r : Exn + A) : M A :=
  match r with
  | inl e => throw e
  | inr a => ret a
  end.

Notation "x <- m ;; k" := (bind m (fun x => k))
  (at level 100, m at next level, right associativity).
Notation "m ;;; k" := (bind m (fun _ => k))
  (at level 100, right associativity).

(** ** Values produced by [JSON.parse] and by property access *)

#[local] Unset Elimination Schemes.
Inductive jsval : Type :=
  | JUndefined
  | JNull
  | JBool (b : bool)
  | JNum (n : Z)
  | JStr (s : jsstring)
  | JArr (l : list jsval)
  | JObj (props : list (jsstring * jsval)).
#[local] Set Elimination Schemes.

(** Truthiness. *)
Definition truthy (v : jsval) : bool :=
  match v with
  | JUndefined | JNull => false
  | JBool b => b
  | JNum n => negb (n =? 0)%Z
  | JStr s => truthy_str s
  | JArr _ | JObj _ => true
  end.

Fixpoint lookupProp (name : jsstring) (props : list (jsstring * jsval)) : jsval :=
  match props with
  | [] => JUndefined
  | (k, v) :: rest => if decide (k = name) then v else lookupProp name rest
  end.

(** [v.name] for a property name that no prototype defines ([title],
    [generated_text]) and a value [v] other than [undefined] and [null]:
    only an object can hold it. *)
Definition getProp (name : jsstring) (v : jsval) : jsval :=
  match v with
  | JObj props => lookupProp name props
  | _ => JUndefined
  end.

(** [data[0]]: throws on [null] and [undefined]. *)
Definition index0 (data : jsval) : Exn + jsval :=
  match data with
  | JUndefined | JNull =>
      inl (TypeError (js "Cannot read properties of null (reading '0')"))
  | JArr l => inr (hd JUndefined l)
  | JObj props => inr (lookupProp (js "0") props)
  | JStr s => inr (match s with [] => JUndefined | c :: _ => JStr [c] end)
  | JBool _ | JNum _ => inr JUndefined
  end.

(** ** Configuration and environment *)

Record Config : Type := mkConfig {
  provider : jsstring;
  hf_key : jsstring;
  model : jsstring;
  maxCandidates : nat;
  maxPayloadBytes : Z;
  timeoutMs : Z
}.

(** The values compiled into the script. *)
Definition AI_CONFIG : Config :=
  mkConfig (js "hf") (js "PUT_KEY_HERE") (js "facebook/bart-large-cnn")
           20 8000 8000.

(** What [response.ok], [response.status] and [await response.json()]
    give. *)
Record Response : Type := mkResponse {
  ok : bool;
  httpStatus : Z;
  json : Exn + jsval
}.

(** The surroundings of one run of the selector.  [fetch] tells how the
    request settles: rejected (a network error, or an [AbortError] when the
    timer of [timeoutMs] fires first) or resolved with a response.
    [mathRandom] is the value of the call of [Math.random()].
    [showToastDefined] tells whether the page defines [showToast], which is
    taken to return without throwing. *)
Record Env : Type := mkEnv {
  config : Config;
  aiToggle : option bool;
  showToastDefined : bool;
  mathRandom : Q;
  fetch : Request -> Exn + Response;
  JSON_parse : jsstring -> Exn + jsval
}.

(** ** Random selection *)

(** [Math.floor(r * n)], with the product taken exactly. *)
Definition randomIndex (r : Q) (n : nat) : Z :=
  Qfloor (r * inject_Z (Z.of_nat n))%Q.

(** [selectRandom]: [None] is the script's [null] (and the [undefined] of an
    index outside the array). *)
Definition selectRandom (r : Q) (candidates : list Show) : option Show :=
  if length candidates =? 0 then None
  else
    let i := randomIndex r (length candidates) in
    if (i <? 0)%Z then None else candidates !! Z.to_nat i.

(** ** The text-generation call *)

(** The match of [/\{[\s\S]*\}/]: the search starts at the leftmost opening
    brace; the starred class is greedy and matches any character, so the
    match ends at the last closing brace after it. *)
Fixpoint uptoLast (c : ascii) (s : jsstring) : option jsstring :=
  match s with
  | [] => None
  | x :: s' =>
      match uptoLast c s' with
      | Some p => Some (x :: p)
      | None => if decide (x = c) then Some [x] else None
      end
  end.

Fixpoint fromFirst (c : ascii) (s : jsstring) : option jsstring :=
  match s with
  | [] => None
  | x :: s' => if decide (x = c) then Some s' else fromFirst c s'
  end.

Definition matchBraces (text : jsstring) : option jsstring :=
  match fromFirst "{" text with
  | Some rest =>
      match uptoLast "}" rest with
      | Some body => Some ("{"%char :: body)
      | None => None
      end
  | None => None
  end.

(** [data[0]?.generated_text?.match(/\{[\s\S]*\}/)]: [None] is the
    [undefined] of a short-circuited chain or the [null] of a failed match;
    a [generated_text] that is not a string has no [match] method. *)
Definition generatedTextMatch (data : jsval) : Exn + option jsstring :=
  match index0 data with
  | inl e => inl e
  | inr (JUndefined | JNull) => inr None
  | inr first =>
      match getProp (js "generated_text") first with
      | JUndefined | JNull => inr None
      | JStr text => inr (matchBraces text)
      | _ => inl (TypeError (js "match is not a function"))
      end
  end.

Definition decimal (n : nat) : jsstring :=
  js (NilEmpty.string_of_uint (Nat.to_uint n)).

Definition decimalZ (z : Z) : jsstring :=
  js (NilEmpty.string_of_int (Z.to_int z)).

Definition requestFor (cfg : Config) (prompt : jsstring) : Request :=
  mkRequest (js "https://api-inference.huggingface.co/models/" ++ model cfg)
            (js "Bearer " ++ hf_key cfg)
            prompt.

Definition fetchHuggingFace (env : Env) (prompt : jsstring) : M jsval :=
  tryCatch
    (let req := requestFor (config env) prompt in
     emit (NetworkRequest req) ;;;
     response <- lift (fetch env req) ;;
     if negb (ok response)
     then throw (Error (js "HTTP error! status: "
                          ++ decimalZ (httpStatus response)))
     else
       data <- lift (json response) ;;
       jsonMatch <- lift (generatedTextMatch data) ;;
       match jsonMatch with
       | Some span => lift (JSON_parse env span)
       | None => throw (Error (js "No valid JSON found in response"))
       end)
    (fun error =>
       if decide (exn_name error = js "AbortError")
       then throw (Error (js "AI request timeout"))
       else throw error).

(** ** Assisted selection *)

Definition nl : jsstring := [ascii_of_nat 10].

Definition promptHeader : jsstring :=
  js "From the following list of candidate shows (title: short_description), select the single best show for tonight."
  ++ nl ++ js "Return valid JSON only: {" ++ dq ++ js "title" ++ dq ++ js ":"
  ++ dq ++ js "..." ++ dq ++ js "," ++ dq ++ js "description" ++ dq ++ js ":"
  ++ dq ++ js "..." ++ dq ++ js "}" ++ nl ++ js "Candidates:" ++ nl.

(** [a || b] on optional strings. *)
Definition orElse (a b : option jsstring) : option jsstring :=
  if truthy_opt a then a else b.

(** [show.description || show.notes || show.overview || ''] *)
Definition descriptionText (show : Show) : jsstring :=
  default [] (orElse (orElse (orElse (description show) (notes show))
                             (overview show))
                     (Some [])).

(** The line that the [forEach] callback appends for the show at [index]. *)
Definition promptLine (index : nat) (show : Show) : jsstring :=
  let description := descriptionText show in
  let shortDescription :=
    if 150 <? length description
    then take 150 description ++ js "..."
    else description in
  decimal (index + 1) ++ js ". " ++ title show ++ js ": "
    ++ shortDescription ++ nl.

Fixpoint appendLines (prompt : jsstring) (index : nat) (l : list Show)
  : jsstring :=
  match l with
  | [] => prompt
  | show :: rest => appendLines (prompt ++ promptLine index show) (S index) rest
  end.

Definition buildPrompt (limitedCandidates : list Show) : jsstring :=
  appendLines promptHeader 0 limitedCandidates.

(** [new Blob([prompt]).size]: the length of the UTF-8 encoding. *)
Definition blobSize (s : jsstring) : Z :=
  foldr (fun c acc => Z.add (if code c <? 128 then 1%Z else 2%Z) acc) 0%Z s.

(** [candidates.find(show => show.title.toLowerCase() ===
    result.title.toLowerCase())]; the callback throws when the suggested
    title is not a string. *)
Fixpoint findByTitle (suggested : jsval) (candidates : list Show)
  : Exn + option Show :=
  match candidates with
  | [] => inr None
  | show :: rest =>
      match suggested with
      | JStr t =>
          if decide (toLowerCase (title show) = toLowerCase t)
          then inr (Some show)
          else findByTitle suggested rest
      | _ => inl (TypeError (js "result.title.toLowerCase is not a function"))
      end
  end.

Definition selectWithAI (env : Env) (candidates : list Show)
  : M (option Show) :=
  let cfg := config env in
  let r := mathRandom env in
  match aiToggle env with
  | None | Some false => ret (selectRandom r candidates)
  | Some true =>
      let limitedCandidates := take (maxCandidates cfg) candidates in
      tryCatch
        (let prompt := buildPrompt limitedCandidates in
         if (maxPayloadBytes cfg <? blobSize prompt)%Z
         then
           emit (ConsoleWarn (js "AI payload too large, falling back to random")) ;;;
           ret (selectRandom r candidates)
         else
           result <-
             (if decide (provider cfg = js "hf")
              then
                if negb (truthy_str (hf_key cfg))
                   || bool_decide (hf_key cfg = js "PUT_KEY_HERE")
                then throw (Error (js "Hugging Face API key not configured"))
                else fetchHuggingFace env prompt
              else throw (Error (js "Unsupported AI provider: "
                                   ++ provider cfg))) ;;
           selectedShow <-
             (if truthy result && truthy (getProp (js "title") result)
              then lift (findByTitle (getProp (js "title") result) candidates)
              else ret None) ;;
           match selectedShow with
           | Some show => ret (Some show)
           | None =>
               emit (ConsoleWarn (js "AI selection failed, falling back to random")) ;;;
               ret (selectRandom r candidates)
           end)
        (fun error =>
           emit (ConsoleError error) ;;;
           (if showToastDefined env
            then emit (Toast (js "AI failed, showing random pick"))
            else ret tt) ;;;
           ret (selectRandom r candidates))
  end.

(** ** Presenter *)

(** [s.replace(/c/g, by)] for a single character [c]. *)
Definition replaceAll (c : ascii) (by_ : jsstring) (s : jsstring) : jsstring :=
  flat_map (fun x => if decide (x = c) then by_ else [x]) s.

(** The fallback [escapeHtml] that the script installs. *)
Definition escapeHtml (unsafe : jsstring) : jsstring :=
  if negb (truthy_str unsafe) then []
  else
    replaceAll "'" (js "&#039;")
      (replaceAll (ascii_of_nat 34) (js "&quot;")
         (replaceAll ">" (js "&gt;")
            (replaceAll "<" (js "&lt;")
               (replaceAll "&" (js "&amp;") unsafe)))).

Definition is_boundary (c : ascii) : bool :=
  bool_decide (c = "."%char) || bool_decide (c = "!"%char)
  || bool_decide (c = "?"%char).

(** [description.split(/[.!?]+/)]: the pieces between maximal runs of
    sentence marks.  [inRun] tells that the previous character was a mark. *)
Fixpoint splitRuns (inRun : bool) (s : jsstring) : list jsstring :=
  match s with
  | [] => [[]]
  | c :: s' =>
      if is_boundary c
      then if inRun then splitRuns true s' else [] :: splitRuns true s'
      else match splitRuns false s' with
           | [] => [[c]]
           | p :: ps => (c :: p) :: ps
           end
  end.

Definition splitSentences (s : jsstring) : list jsstring := splitRuns false s.

(** The description shown on the card. *)
Definition cardDescription (show : Show) : jsstring :=
  let description := descriptionText show in
  let sentences := splitSentences description in
  if 2 <? length sentences
  then join (js ".") (take 2 sentences) ++ js "."
  else description.

(** [show.posterDataUrl || show.posterUrl || ''] *)
Definition posterOf (show : Show) : jsstring :=
  default [] (orElse (orElse (posterDataUrl show) (posterUrl show)) (Some [])).

Definition posterMarkup (show : Show) : jsstring :=
  let posterUrl := posterOf show in
  if truthy_str posterUrl
  then js "<img src=" ++ dq ++ posterUrl ++ dq ++ js " alt=" ++ dq
       ++ title show ++ dq ++ js " class=" ++ dq ++ js "result-poster" ++ dq
       ++ js ">"
  else [].

Definition titleMarkup (show : Show) : jsstring :=
  js "<h3 class=" ++ dq ++ js "result-title" ++ dq ++ js ">"
  ++ escapeHtml (title show) ++ js "</h3>".

Definition descriptionMarkup (show : Show) : jsstring :=
  js "<p class=" ++ dq ++ js "result-description" ++ dq ++ js ">"
  ++ escapeHtml (cardDescription show) ++ js "</p>".

Definition buttonMarkup : jsstring :=
  js "<button id=" ++ dq ++ js "open-detail-btn" ++ dq ++ js " class=" ++ dq
  ++ js "btn-primary" ++ dq ++ js ">View Details</button>".

Definition indent : jsstring := nl ++ js "    ".

(** The template literal assigned to [resultPanel.innerHTML]. *)
Definition cardMarkup (show : Show) : jsstring :=
  indent ++ posterMarkup show
  ++ indent ++ titleMarkup show
  ++ indent ++ descriptionMarkup show
  ++ indent ++ buttonMarkup
  ++ nl ++ js "  ".

(** The two panels: the markup of [#result], whether each panel carries the
    class [hidden], and the show that the click listener of the detail
    button hands to [openShowDetail]. *)
Record Panels : Type := mkPanels {
  resultHTML : jsstring;
  resultHidden : bool;
  noResultsHidden : bool;
  detailTarget : option Show
}.

Definition showResult (show : option Show) (p : Panels) : Panels :=
  match show with
  | None => mkPanels (resultHTML p) true false (detailTarget p)
  | Some show => mkPanels (cardMarkup show) false true (Some show)
  end.

(** ** The recommend button *)


(** The test hooks [window._recommendSelectRandom] and
    [window._recommendSelectAI]. *)
Definition _recommendSelectRandom (env : Env) (st : State) (f : Filters)
  : State * option Show :=
  let '(st', candidates) := applyFilters st f in
  (st', selectRandom (mathRandom env) candidates).

Definition _recommendSelectAI (env : Env) (st : State) (f : Filters)
  : M (State * option Show) :=
  let '(st', candidates) := applyFilters st f in
  picked <- selectWithAI env candidates ;;
  ret (st', picked).

(** ** Reference notions used in the statements *)

(** [needle] occurs in [hay] when letter case is ignored. *)
Definition ciSubstring (needle hay : jsstring) : Prop :=
  ∃ pre post, toLowerCase hay = pre ++ toLowerCase needle ++ post.

(** Equality of two strings when letter case is ignored. *)
Definition ciEqual (a b : jsstring) : Prop := toLowerCase a = toLowerCase b.

#[global] Instance ciEqual_dec a b : Decision (ciEqual a b) :=
  decide (toLowerCase a = toLowerCase b).

(** Every show without [updatedAt] stands after every show that has one. *)
Definition missingLast (l : list Show) : Prop :=
  ∀ i j a b, l !! i = Some a → l !! j = Some b →
    updatedAt a = None → updatedAt b ≠ None → j < i.

(** The span of balanced braces that opens at the leftmost opening brace:
    [depth] counts the braces opened inside it and not yet closed. *)
Fixpoint balancedPrefix (depth : nat) (s : jsstring) : option jsstring :=
  match s with
  | [] => None
  | c :: s' =>
      if decide (c = "{"%char) then cons c <$> balancedPrefix (S depth) s'
      else if decide (c = "}"%char) then
        match depth with
        | 0 => Some [c]
        | S d => cons c <$> balancedPrefix d s'
        end
      else cons c <$> balancedPrefix depth s'
  end.

Definition firstTopLevelSpan (text : jsstring) : option jsstring :=
  match fromFirst "{" text with
  | Some rest => cons "{"%char <$> balancedPrefix 0 rest
  | None => None
  end.

(** The text up to the end of the [n]-th sentence, a sentence ending with
    its run of marks; [inRun] tells that the previous character was a
    mark. *)
Fixpoint takeSentences (n : nat) (inRun : bool) (s : jsstring) : jsstring :=
  match s with
  | [] => []
  | c :: s' =>
      if is_boundary c then c :: takeSentences n true s'
      else if inRun then
        match n with
        | 0 | 1 => []
        | S n' => c :: takeSentences n' false s'
        end
      else c :: takeSentences n false s'
  end.

Definition firstTwoSentences (s : jsstring) : jsstring :=
  takeSentences 2 false s.

(** Two shows that differ at most in the form of their tags: the first
    holds a comma-joined string and the second the array of its pieces. *)
Definition sameButTagForm (a b : Show) : Prop :=
  a = b ∨ ∃ s, tags a = TagsString s ∧ b = set_tags (TagsArray (split "," s)) a.

(** The same, for a comma-joined string that is not empty. *)
Definition sameButTagForm' (a b : Show) : Prop :=
  a = b ∨ ∃ s, s ≠ [] ∧ tags a = TagsString s
               ∧ b = set_tags (TagsArray (split "," s)) a.

(** The trace holds no network request. *)
Definition noRequest (tr : list Event) : Prop :=
  ∀ req, NetworkRequest req ∉ tr.


(** HTML escaping, character by character. *)
Definition escape_unit (c : ascii) : jsstring :=
  if decide (c = "&"%char) then js "&amp;"
  else if decide (c = "<"%char) then js "&lt;"
  else if decide (c = ">"%char) then js "&gt;"
  else if decide (c = ascii_of_nat 34) then js "&quot;"
  else if decide (c = "'"%char) then js "&#039;"
  else [c].

Definition htmlEscape (s : jsstring) : jsstring := flat_map escape_unit s.

(** The characters that delimit markup and attribute values. *)
Definition markupChar (c : ascii) : Prop :=
  c = "<"%char ∨ c = ">"%char ∨ c = ascii_of_nat 34 ∨ c = "'"%char.

(** The first two pieces of the description, each closed by a full stop,
    when the description has more than two pieces. *)
Definition twoPieces (description : jsstring) : jsstring :=
  match splitSentences description with
  | s1 :: s2 :: _ :: _ => s1 ++ js "." ++ s2 ++ js "."
  | _ => description
  end.

(** ** The course of an assisted selection *)

(** The prompt that [selectWithAI] builds for a candidate list, and the
    request it sends. *)
Definition promptOf (env : Env) (candidates : list Show) : jsstring :=
  buildPrompt (take (maxCandidates (config env)) candidates).

Definition requestOf (env : Env) (candidates : list Show) : Request :=
  requestFor (config env) (promptOf env candidates).

(** The credential is missing: empty, or still the placeholder. *)
Definition credentialMissing (cfg : Config) : Prop :=
  hf_key cfg = [] ∨ hf_key cfg = js "PUT_KEY_HERE".

(** The selector reaches the network call: the toggle is on, the prompt
    passes the size check, the provider is supported and the credential is
    set. *)
Definition callIssued (env : Env) (candidates : list Show) : Prop :=
  aiToggle env = Some true
  ∧ (blobSize (promptOf env candidates) <= maxPayloadBytes (config env))%Z
  ∧ provider (config env) = js "hf"
  ∧ ¬ credentialMissing (config env).

(** The call is issued and the service answers with text in which a span
    is found that parses to [res]. *)
Definition answered (env : Env) (candidates : list Show) (res : jsval) : Prop :=
  callIssued env candidates
  ∧ ∃ resp data span,
      fetch env (requestOf env candidates) = inr resp
      ∧ ok resp = true
      ∧ json resp = inr data
      ∧ generatedTextMatch data = inr (Some span)
      ∧ JSON_parse env span = inr res.

(** Some candidate bears the suggested title, letter case ignored. *)
Definition titleMatches (suggested : jsval) (candidates : list Show) : Prop :=
  ∃ show t, show ∈ candidates ∧ suggested = JStr t ∧ ciEqual (title show) t.


(** ** Sample data *)

Definition plainShow (t : jsstring) (tg : Tags) (u : option Z) : Show :=
  mkShow t (js "movie") (js "watching") tg None None None None None u.

Definition stateOf (shows : list Show) : State := mkState shows [] [] ∅.

Definition noFilters : Filters := mkFilters (js "all") (js "all") [].

(** A show without [updatedAt], and one updated before the epoch
    (1969-07-20T20:17:40Z). *)
Definition undatedShow : Show := plainShow (js "Undated") TagsAbsent None.

Definition moonShow : Show :=
  plainShow (js "Moon landing") TagsAbsent (Some (-14182940000)%Z).

(** The spec's example: "A" with tags "x, y" and "B" with tags ["x"],
    "B" updated after "A". *)
Definition showA : Show := plainShow (js "A") (TagsString (js "x, y")) (Some 1000%Z).

Definition showB : Show := plainShow (js "B") (TagsArray [js "x"]) (Some 2000%Z).

(** The state after page initialisation, then with the given tags ticked. *)
Definition loaded (shows : list Show) : State :=
  renderTagFilters (extractUniqueTags (stateOf shows)).

Definition tick (tag : jsstring) (st : State) : State :=
  mkState (allShows st) (uniqueTags st) (filteredCandidates st)
          (<[tag := mkCheckbox true]> (tagMap st)).

(** A show whose tags are the empty string, and the same show with the
    array of the pieces of that string. *)
Definition emptyStringTags : Show := plainShow (js "S") (TagsString []) None.

Definition emptyPieceTags : Show := plainShow (js "S") (TagsArray [[]]) None.

(** A show whose prompt is exactly 8000 bytes long. *)
Definition longTitleShow : Show :=
  plainShow (replicate (Z.to_nat 7810) "a"%char) TagsAbsent None.


(** Twenty-one shows, "S1" to "S21". *)
Definition numberedShows : list Show :=
  map (λ i, plainShow (js "S" ++ decimal i) TagsAbsent None) (seq 1 21).

(** A show with three short sentences. *)
Definition chattyShow : Show :=
  mkShow (js "Chat") (js "movie") (js "watching") TagsAbsent
         (Some (js "Hi! There? Yes")) None None None None None.

Definition blankPanels : Panels := mkPanels [] true true None.

(** A show with a poster and a title that holds a double quote. *)
Definition quotedShow : Show :=
  mkShow (js "A" ++ dq ++ js "B") (js "movie") (js "watching") TagsAbsent
         None None None (Some (js "p.png")) None None.

(** ** Sample environments *)

(** The compiled-in configuration with a credential filled in. *)
Definition configured : Config :=
  mkConfig (js "hf") (js "hf_secret") (js "facebook/bart-large-cnn")
           20 8000 8000.

Definition syntaxError : Exn := mkExn (js "SyntaxError") (js "Unexpected token").

(** A [JSON.parse] that knows one text. *)
Definition parseOnly (text : jsstring) (v : jsval) : jsstring → Exn + jsval :=
  λ span, if decide (span = text) then inr v else inl syntaxError.

(** The service is unreachable. *)
Definition offlineEnv : Env :=
  mkEnv configured (Some true) false 0%Q
        (λ _, inl (TypeError (js "Failed to fetch")))
        (λ _, inl syntaxError).

(** The service answers with [generated_text = text]; [parse] is
    [JSON.parse]. *)
Definition answerEnv (text : jsstring) (parse : jsstring → Exn + jsval) : Env :=
  mkEnv configured (Some true) false 0%Q
        (λ _, inr (mkResponse true 200
                     (inr (JArr [JObj [(js "generated_text", JStr text)]]))))
        parse.

(** The text of an object with one [title] property. *)
Definition titleObject (t : jsstring) : jsstring :=
  js "{" ++ dq ++ js "title" ++ dq ++ js ":" ++ dq ++ t ++ dq ++ js "}".

(** A text with two objects, as a model that repeats the prompt would
    produce. *)
Definition twoObjects : jsstring :=
  titleObject (js "A") ++ js " or " ++ titleObject (js "B").

(** ** Page initialisation and the clear-filters button *)

(** What [localStorage.getItem('watcher:data:v3')] leads to: no item (or an
    empty one); an item on which [JSON.parse] throws, or that parses to
    [null] so that reading [parsed.shows] throws; an item that parses to an
    object, with its [shows] property ([None] when it is missing). *)
Inductive Stored : Type :=
  | NoItem
  | BadItem (e : Exn)
  | Item (shows : option (list Show)).

(** The surroundings of [initRecommendationPage]: [window.state.shows] when
    both exist, the stored item, and whether the page has the element
    [#tags-container]. *)
Record PageData : Type := mkPageData {
  windowShows : option (list Show);
  stored : Stored;
  tagsContainer : bool
}.

(** The first part of [initRecommendationPage]: the show list, or the error
    caught by its [catch] block. *)
Definition loadShows (d : PageData) : Exn + list Show :=
  match windowShows d with
  | Some shows => inr shows
  | None =>
      match stored d with
      | Item shows => inr (default [] shows)
      | NoItem => inl (Error (js "MISSING: window.state or watcher:data:v3"))
      | BadItem e => inl e
      end
  end.

(** [renderTagFilters] with its guard [if (!tagsContainer) return]. *)
Definition renderTagFiltersIn (present : bool) (st : State) : State :=
  if present then renderTagFilters st else st.

(** [initRecommendationPage]: the new module state and, when no data was
    found, the error that is reported after the alert; the function then
    returns before anything else is touched. *)
Definition initRecommendationPage (d : PageData) (st : State)
  : State * option Exn :=
  match loadShows d with
  | inl e => (st, Some e)
  | inr shows =>
      (renderTagFiltersIn (tagsContainer d)
         (extractUniqueTags
            (mkState shows (uniqueTags st) (filteredCandidates st) (tagMap st))),
       None)
  end.

(** The module state when the script is loaded. *)
Definition initialState : State := mkState [] [] [] ∅.

(** [uniqueTags.forEach(tag => { if (tagMap[tag]) tagMap[tag].checked = false })] *)
Definition uncheckAll (st : State) : State :=
  mkState (allShows st) (uniqueTags st) (filteredCandidates st)
          (foldl (fun m tag =>
                    match m !! tag with
                    | Some _ => <[tag := mkCheckbox false]> m
                    | None => m
                    end)
                 (tagMap st) (uniqueTags st)).

(** The click listener of [#clear-filters]: the three controls are reset,
    the tags unticked, and the filters applied again. *)
Definition onClearFilters (st : State) : State * Filters * list Show :=
  let f := mkFilters (js "all") (js "all") [] in
  let '(st', result) := applyFilters (uncheckAll st) f in
  (st', f, result).

(** The events of a trace that are network requests. *)
Definition isRequest (ev : Event) : bool :=
  match ev with
  | NetworkRequest _ => true
  | _ => false
  end.

(** A character that [escapeHtml] leaves as it is. *)
Definition plainChar (c : ascii) : Prop := ¬ markupChar c ∧ c ≠ "&"%char.

(** A page with two stored shows and nothing in [window.state]. *)
Definition storedPage : PageData :=
  mkPageData None (Item (Some [showA; showB])) true.

(** * Proofs *)

(** ** Strings *)

Lemma startsWith_spec s q :
  startsWith s q = true ↔ ∃ post, s = q ++ post.
Proof.
  revert s. induction q as [|c q IH]; intros s; simpl.
  - split; eauto.
  - destruct s as [|d s].
    + split; [discriminate | intros [post H]; discriminate].
    + rewrite andb_true_iff, bool_decide_eq_true, IH. split.
      * intros [-> [post ->]]. eauto.
      * intros [post H]. injection H as -> ->. eauto.
Qed.

Lemma includes_spec s q :
  includes s q = true ↔ ∃ pre post, s = pre ++ q ++ post.
Proof.
  induction s as [|d s IH].
  - simpl. rewrite orb_false_r, startsWith_spec. split.
    + intros [post H]. exists [], post. exact H.
    + intros [pre [post H]]. destruct pre; [|discriminate]. eauto.
  - cbn [includes]. rewrite orb_true_iff, startsWith_spec, IH. split.
    + intros [[post H] | [pre [post H]]].
      * exists [], post. exact H.
      * exists (d :: pre), post. simpl. by rewrite H.
    + intros [pre [post H]]. destruct pre as [|d' pre].
      * left. exists post. exact H.
      * right. simpl in H. injection H as _ H. eauto.
Qed.

Lemma toLowerCase_nil s : toLowerCase s = [] ↔ s = [].
Proof. unfold toLowerCase. destruct s; simpl; split; congruence. Qed.

Lemma fieldIncludes_spec o needle :
  needle ≠ [] →
  fieldIncludes o (toLowerCase needle) = true
  ↔ ∃ s, o = Some s ∧ ciSubstring needle s.
Proof.
  intros Hne. unfold fieldIncludes, ciSubstring. destruct o as [s|].
  - rewrite andb_true_iff, includes_spec. split.
    + intros [_ H]. eauto.
    + intros [s' [[= <-] [pre [post H]]]]. split; [|eauto].
      destruct s; [|done]. simpl in H.
      destruct pre; [|discriminate]. simpl in H.
      symmetry in H. apply app_eq_nil in H as [H _].
      apply (proj1 (toLowerCase_nil _)) in H. congruence.
  - split; [discriminate | intros [s [[=] _]]].
Qed.

(** ** Sorting *)

Section SortFacts.
Context {A : Type} (cmp : A → A → Z).

Lemma sort_insert_perm x l : sort_insert cmp x l ≡ₚ x :: l.
Proof.
  induction l as [|y l IH]; simpl; [done|].
  destruct (cmp x y <=? 0)%Z; [done|].
  rewrite IH. apply Permutation_swap.
Qed.

Lemma js_sort_perm l : js_sort cmp l ≡ₚ l.
Proof.
  induction l as [|x l IH]; simpl; [done|].
  by rewrite sort_insert_perm, IH.
Qed.

Lemma js_sort_elem x l : x ∈ js_sort cmp l ↔ x ∈ l.
Proof. by rewrite js_sort_perm. Qed.

Lemma js_sort_length l : length (js_sort cmp l) = length l.
Proof. by rewrite js_sort_perm. Qed.

Hypothesis cmp_total : ∀ x y, mayPrecede cmp x y ∨ mayPrecede cmp y x.
Hypothesis cmp_trans :
  ∀ x y z, mayPrecede cmp x y → mayPrecede cmp y z → mayPrecede cmp x z.

Lemma sort_insert_sorted x l :
  StronglySorted (mayPrecede cmp) l →
  StronglySorted (mayPrecede cmp) (sort_insert cmp x l).
Proof.
  induction 1 as [|y l Hl IH Hy]; simpl.
  - repeat constructor.
  - destruct (cmp x y <=? 0)%Z eqn:E.
    + apply Z.leb_le in E. constructor; [by constructor|].
      constructor; [exact E|].
      eapply Forall_impl; [exact Hy|]. intros z Hz. by eapply cmp_trans.
    + apply Z.leb_gt in E. constructor; [exact IH|].
      rewrite sort_insert_perm. constructor; [|exact Hy].
      destruct (cmp_total x y) as [H|H]; [unfold mayPrecede in H; lia|exact H].
Qed.

Lemma js_sort_sorted l : StronglySorted (mayPrecede cmp) (js_sort cmp l).
Proof.
  induction l as [|x l IH]; simpl; [constructor|].
  by apply sort_insert_sorted.
Qed.
End SortFacts.

Lemma StronglySorted_weaken {A} (R R' : A → A → Prop) l :
  (∀ x y, R x y → R' x y) → StronglySorted R l → StronglySorted R' l.
Proof.
  intros HR. induction 1 as [|x l Hl IH Hx]; constructor; [done|].
  eapply Forall_impl; [exact Hx|]. intros y. apply HR.
Qed.

(** Stability: shows with the same date keep the order they had. *)
Lemma sort_insert_same_date k x l :
  filter (λ s, sortDate s = k) (sort_insert byRecency x l)
  = filter (λ s, sortDate s = k) (x :: l).
Proof.
  induction l as [|y l IH]; simpl; [done|].
  destruct (byRecency x y <=? 0)%Z eqn:E; [done|].
  apply Z.leb_gt in E. unfold byRecency in E.
  rewrite (filter_cons _ y), IH, !filter_cons.
  repeat case_decide; try done; lia.
Qed.

Lemma js_sort_stable k l :
  filter (λ s, sortDate s = k) (js_sort byRecency l)
  = filter (λ s, sortDate s = k) l.
Proof.
  induction l as [|x l IH]; simpl; [done|].
  rewrite sort_insert_same_date, !filter_cons, IH. done.
Qed.

(** ** The filter engine *)

Lemma byRecency_precede a b :
  mayPrecede byRecency a b ↔ (sortDate b <= sortDate a)%Z.
Proof. unfold mayPrecede, byRecency. lia. Qed.

Lemma applyFilters_sorted st f :
  StronglySorted (λ a b, (sortDate b <= sortDate a)%Z) (applyFilters st f).2.
Proof.
  unfold applyFilters; simpl.
  eapply StronglySorted_weaken; [|apply js_sort_sorted].
  - intros a b. apply byRecency_precede.
  - intros x y. rewrite !byRecency_precede. lia.
  - intros x y z. rewrite !byRecency_precede. lia.
Qed.

(** Two lists in non-increasing order of date that hold, for every date, the
    same shows in the same order, are equal: the stable sorted arrangement
    of a list is unique, and [js_sort byRecency] computes it. *)
Lemma stable_sorted_unique (l1 l2 : list Show) :
  StronglySorted (λ a b, (sortDate b <= sortDate a)%Z) l1 →
  StronglySorted (λ a b, (sortDate b <= sortDate a)%Z) l2 →
  (∀ k, filter (λ s, sortDate s = k) l1 = filter (λ s, sortDate s = k) l2) →
  l1 = l2.
Proof.
  intros H1. revert l2. induction H1 as [|x l1 Hs1 IH Hx]; intros l2 H2 Hf.
  - destruct l2 as [|y l2]; [done|].
    specialize (Hf (sortDate y)). rewrite filter_cons in Hf.
    by rewrite decide_True in Hf.
  - destruct H2 as [|y l2 Hs2 Hy].
    { specialize (Hf (sortDate x)). rewrite filter_cons in Hf.
      by rewrite decide_True in Hf. }
    rewrite Forall_forall in Hx, Hy.
    assert (Hkey : sortDate x = sortDate y).
    { apply Z.le_antisymm.
      - pose proof (Hf (sortDate x)) as Hfx. rewrite filter_cons in Hfx.
        rewrite decide_True in Hfx by done.
        assert (Hin : x ∈ filter (λ s, sortDate s = sortDate x) (y :: l2))
          by (rewrite <- Hfx; left).
        apply list_elem_of_filter in Hin as [_ Hin].
        apply elem_of_cons in Hin as [->|Hin]; [done|]. by apply Hy.
      - pose proof (Hf (sortDate y)) as Hfy. rewrite (filter_cons _ y) in Hfy.
        rewrite decide_True in Hfy by done.
        assert (Hin : y ∈ filter (λ s, sortDate s = sortDate y) (x :: l1))
          by (rewrite Hfy; left).
        apply list_elem_of_filter in Hin as [_ Hin].
        apply elem_of_cons in Hin as [->|Hin]; [done|]. by apply Hx. }
    pose proof (Hf (sortDate x)) as Hhd. rewrite !filter_cons in Hhd.
    rewrite decide_True in Hhd by done.
    rewrite decide_True in Hhd by done.
    injection Hhd as -> Htl. f_equal. apply IH; [done|].
    intros k. specialize (Hf k). rewrite !filter_cons in Hf.
    case_decide; [by injection Hf|done].
Qed.

Lemma js_sort_byRecency_unique l l' :
  StronglySorted (λ a b, (sortDate b <= sortDate a)%Z) l' →
  (∀ k, filter (λ s, sortDate s = k) l' = filter (λ s, sortDate s = k) l) →
  l' = js_sort byRecency l.
Proof.
  intros Hs Hf. apply stable_sorted_unique; [done| |].
  - eapply StronglySorted_weaken; [|apply js_sort_sorted].
    + intros a b. apply byRecency_precede.
    + intros x y. rewrite !byRecency_precede. lia.
    + intros x y z. rewrite !byRecency_precede. lia.
  - intros k. by rewrite js_sort_stable.
Qed.

Lemma keepShow_spec f st show :
  keepShow (categoryValue f) (statusValue f) (toLowerCase (searchValue f))
           (selectedTags st) show = true
  ↔ (categoryValue f = js "all" ∨ type show = categoryValue f)
    ∧ (statusValue f = js "all" ∨ status show = statusValue f)
    ∧ (searchValue f = []
       ∨ ciSubstring (searchValue f) (title show)
       ∨ (∃ d, description show = Some d ∧ ciSubstring (searchValue f) d)
       ∨ (∃ n, notes show = Some n ∧ ciSubstring (searchValue f) n))
    ∧ (∀ tag, tag ∈ selectedTags st → tag ∈ showTags show).
Proof.
  unfold keepShow.
  set (sel := selectedTags st).
  assert (Htags : negb (bool_decide (sel = []))
                  && negb (forallb (λ tag, bool_decide (tag ∈ showTags show)) sel)
                  = false
                  ↔ ∀ tag, tag ∈ sel → tag ∈ showTags show).
  { rewrite andb_false_iff, !negb_false_iff, bool_decide_eq_true, forallb_forall.
    split.
    - intros [-> | H] tag Hin; [by apply elem_of_nil in Hin|].
      apply list_elem_of_In, H in Hin. by apply bool_decide_eq_true in Hin.
    - intros H. right. intros tag Hin. apply bool_decide_eq_true, H.
      by apply list_elem_of_In. }
  assert (Hsearch :
            truthy_str (toLowerCase (searchValue f))
            && negb (fieldIncludes (Some (title show)) (toLowerCase (searchValue f)))
            && negb (fieldIncludes (description show) (toLowerCase (searchValue f)))
            && negb (fieldIncludes (notes show) (toLowerCase (searchValue f)))
            = false
            ↔ (searchValue f = []
               ∨ ciSubstring (searchValue f) (title show)
               ∨ (∃ d, description show = Some d ∧ ciSubstring (searchValue f) d)
               ∨ (∃ n, notes show = Some n ∧ ciSubstring (searchValue f) n))).
  { destruct (searchValue f) as [|c q] eqn:Eq; [simpl; tauto|].
    assert (Hne : c :: q ≠ []) by done.
    rewrite !andb_false_iff, !negb_false_iff, !fieldIncludes_spec by done.
    simpl truthy_str. split.
    - intros [[[H|H]|H]|H]; [done| |by auto|by auto].
      destruct H as [s [[= <-] H]]. auto.
    - intros [H|[H|[H|H]]]; [done| |by auto|by auto].
      left; left; right. eauto. }
  destruct (bool_decide (categoryValue f ≠ js "all")
            && bool_decide (type show ≠ categoryValue f)) eqn:Ec.
  { apply andb_true_iff in Ec as [E1 E2].
    apply bool_decide_eq_true in E1, E2. split; [done|].
    intros [[H|H] _]; done. }
  destruct (bool_decide (statusValue f ≠ js "all")
            && bool_decide (status show ≠ statusValue f)) eqn:Es.
  { apply andb_true_iff in Es as [E1 E2].
    apply bool_decide_eq_true in E1, E2. split; [done|].
    intros [_ [[H|H] _]]; done. }
  apply andb_false_iff in Ec, Es.
  rewrite !bool_decide_eq_false in Ec, Es.
  assert (Hc : categoryValue f = js "all" ∨ type show = categoryValue f).
  { destruct Ec as [H|H]; [left|right]; by apply dec_stable. }
  assert (Hs : statusValue f = js "all" ∨ status show = statusValue f).
  { destruct Es as [H|H]; [left|right]; by apply dec_stable. }
  match goal with |- context [if ?b then false else _] =>
    destruct b eqn:Et end.
  { split; [done|]. intros (_ & _ & _ & H). apply Htags in H. discriminate. }
  assert (Ht : ∀ tag, tag ∈ sel → tag ∈ showTags show) by (by apply Htags).
  match goal with |- context [if ?b then false else true] =>
    destruct b eqn:Eq end.
  { split; [done|]. intros (_ & _ & H & _). apply Hsearch in H. discriminate. }
  split; [intros _|done].
  repeat split; [exact Hc|exact Hs| |exact Ht]. by apply Hsearch.
Qed.


(** With no filter set, every show is returned. *)
Lemma applyFilters_no_filter st :
  selectedTags st = [] → (applyFilters st noFilters).2 ≡ₚ allShows st.
Proof.
  intros Hsel. unfold applyFilters. simpl. rewrite js_sort_perm, Hsel.
  induction (allShows st) as [|show l IH]; simpl; [done|].
  by rewrite IH.
Qed.

Lemma StronglySorted_lookup {A} (R : A → A → Prop) (l : list A) i j a b :
  StronglySorted R l → i < j → l !! i = Some a → l !! j = Some b → R a b.
Proof.
  intros Hs. revert i j. induction Hs as [|x l Hl IH Hx]; intros i j Hij Hi Hj.
  - done.
  - destruct j as [|j]; [lia|]. destruct i as [|i]; simpl in *.
    + injection Hi as <-. rewrite Forall_forall in Hx. apply Hx.
      apply list_elem_of_lookup. eauto.
    + apply (IH i j); [lia|done|done].
Qed.

(** C2, as stated, fails: with no filter active, a show without
    [updatedAt] is returned before a show updated before the epoch. *)
Lemma applyFilters_missing_not_last :
  (applyFilters (stateOf [undatedShow; moonShow]) noFilters).2
  = [undatedShow; moonShow]
  ∧ ¬ missingLast (applyFilters (stateOf [undatedShow; moonShow]) noFilters).2.
Proof.
  split; [reflexivity|].
  intros H.
  specialize (H 0 1 undatedShow moonShow eq_refl eq_refl eq_refl).
  assert (1 < 0); [|lia]. by apply H.
Qed.

(** C2, amended. The result of the filter engine is sorted non-increasing by
    the time value of [updatedAt], a missing [updatedAt] counting as time 0
    (the epoch); so a show without [updatedAt] stands after every show
    updated later than the epoch. *)
Theorem applyFilters_recency st f :
  StronglySorted (λ a b, (sortDate b <= sortDate a)%Z) (applyFilters st f).2
  ∧ (∀ show, updatedAt show = None → sortDate show = 0%Z)
  ∧ (∀ show t, updatedAt show = Some t → sortDate show = t)
  ∧ ∀ i j a b t,
      (applyFilters st f).2 !! i = Some a →
      (applyFilters st f).2 !! j = Some b →
      updatedAt a = None → updatedAt b = Some t → (0 < t)%Z → j < i.
Proof.
  split; [apply applyFilters_sorted|].
  split; [by intros show H; unfold sortDate; rewrite H|].
  split; [by intros show t H; unfold sortDate; rewrite H|].
  intros i j a b t Hi Hj Ha Hb Ht.
  destruct (decide (j < i)) as [|Hn]; [done|exfalso].
  assert (Hab : sortDate a = 0%Z ∧ sortDate b = t)
    by (unfold sortDate; by rewrite Ha, Hb).
  destruct (decide (i = j)) as [->|Hne].
  - rewrite Hi in Hj. injection Hj as ->. congruence.
  - pose proof (StronglySorted_lookup _ _ i j a b (applyFilters_sorted st f)
                  ltac:(lia) Hi Hj) as Hle.
    simpl in Hle. lia.
Qed.

(** [applyFilters_recency] at a concrete collection: the undated show is
    returned after the dated one. *)
Lemma applyFilters_recency_witness :
  (applyFilters (stateOf [undatedShow; plainShow (js "B") TagsAbsent (Some 5%Z)])
                noFilters).2 !! 1 = Some undatedShow
  ∧ 0 < 1.
Proof.
  split; [reflexivity|].
  apply (proj2 (proj2 (proj2
           (applyFilters_recency
              (stateOf [undatedShow; plainShow (js "B") TagsAbsent (Some 5%Z)])
              noFilters)))
           1 0 undatedShow (plainShow (js "B") TagsAbsent (Some 5%Z)) 5%Z);
    reflexivity.
Defined.

(** ** Normalized tags *)

Lemma lower_unit_idemp c : lower_unit (lower_unit c) = lower_unit c.
Proof. by destruct c as [[] [] [] [] [] [] [] []]. Qed.

Lemma is_ws_lower_unit c : is_ws (lower_unit c) = is_ws c.
Proof. by destruct c as [[] [] [] [] [] [] [] []]. Qed.

Lemma toLowerCase_idemp s : toLowerCase (toLowerCase s) = toLowerCase s.
Proof.
  unfold toLowerCase. rewrite map_map. apply map_ext, lower_unit_idemp.
Qed.

Lemma trimStart_toLowerCase s :
  trimStart (toLowerCase s) = toLowerCase (trimStart s).
Proof.
  induction s as [|c s IH]; simpl; [done|].
  rewrite is_ws_lower_unit. by destruct (is_ws c).
Qed.

Lemma toLowerCase_rev s : toLowerCase (rev s) = rev (toLowerCase s).
Proof. unfold toLowerCase. apply map_rev. Qed.

Lemma trim_toLowerCase s : trim (toLowerCase s) = toLowerCase (trim s).
Proof.
  unfold trim, trimEnd.
  by rewrite trimStart_toLowerCase, <- toLowerCase_rev, trimStart_toLowerCase,
    toLowerCase_rev.
Qed.

Lemma trimStart_noLeadingWs s : noLeadingWs (trimStart s).
Proof.
  induction s as [|c s IH]; simpl; [done|].
  destruct (is_ws c) eqn:E; [done|]. exact E.
Qed.

Lemma trimStart_id s : noLeadingWs s → trimStart s = s.
Proof. destruct s as [|c s]; simpl; [done|]. by intros ->. Qed.

Lemma trimStart_snoc s c :
  is_ws c = false → trimStart (s ++ [c]) = trimStart s ++ [c].
Proof.
  intros Hc. induction s as [|x s IH]; simpl; [by rewrite Hc|].
  by destruct (is_ws x).
Qed.

Lemma trimEnd_noLeadingWs s : noLeadingWs s → noLeadingWs (trimEnd s).
Proof.
  destruct s as [|c s]; [done|]. simpl. intros Hc.
  unfold trimEnd. simpl. rewrite trimStart_snoc by done.
  by rewrite rev_app_distr.
Qed.

Lemma trimEnd_idemp s : trimEnd (trimEnd s) = trimEnd s.
Proof.
  unfold trimEnd. rewrite rev_involutive.
  by rewrite (trimStart_id (trimStart _)) by apply trimStart_noLeadingWs.
Qed.

Lemma trim_idemp s : trim (trim s) = trim s.
Proof.
  unfold trim.
  rewrite (trimStart_id (trimEnd _))
    by apply trimEnd_noLeadingWs, trimStart_noLeadingWs.
  apply trimEnd_idemp.
Qed.

Lemma normTag_trimmed t : trim (normTag t) = normTag t.
Proof. unfold normTag. by rewrite trim_toLowerCase, trim_idemp. Qed.

Lemma normTag_lower t : toLowerCase (normTag t) = normTag t.
Proof. unfold normTag. apply toLowerCase_idemp. Qed.

(** ** The order of strings *)

Lemma code_inj c d : code c = code d → c = d.
Proof.
  unfold code. intros H.
  by rewrite <- (ascii_nat_embedding c), <- (ascii_nat_embedding d), H.
Qed.

Lemma str_compare_eq a b : str_compare a b = Eq → a = b.
Proof.
  revert b. induction a as [|c a IH]; intros [|d b]; simpl; try done.
  destruct (Nat.compare_spec (code c) (code d)) as [E| |]; try done.
  intros H. apply code_inj in E as ->. by rewrite (IH b H).
Qed.

Lemma str_compare_antisym a b : str_compare b a = CompOpp (str_compare a b).
Proof.
  revert b. induction a as [|c a IH]; intros [|d b]; simpl; try done.
  rewrite (Nat.compare_antisym (code c) (code d)).
  destruct (code c ?= code d); simpl; [apply IH|done|done].
Qed.

Lemma str_compare_trans a b c :
  str_compare a b ≠ Gt → str_compare b c ≠ Gt → str_compare a c ≠ Gt.
Proof.
  revert b c. induction a as [|x a IH]; intros [|y b] [|z c]; simpl; try done.
  destruct (Nat.compare_spec (code x) (code y)),
           (Nat.compare_spec (code y) (code z)),
           (Nat.compare_spec (code x) (code z));
    try done; try lia.
  apply IH.
Qed.

Lemma defaultCompare_precede a b :
  mayPrecede defaultCompare a b ↔ str_compare a b ≠ Gt.
Proof.
  unfold mayPrecede, defaultCompare. destruct (str_compare a b); split; done || lia.
Qed.

Lemma defaultSort_sorted l :
  StronglySorted (λ a b, str_compare a b ≠ Gt) (js_sort defaultCompare l).
Proof.
  eapply StronglySorted_weaken; [|apply js_sort_sorted].
  - intros a b. apply defaultCompare_precede.
  - intros x y. rewrite !defaultCompare_precede, (str_compare_antisym x y).
    destruct (str_compare x y); simpl; auto.
  - intros x y z. rewrite !defaultCompare_precede. apply str_compare_trans.
Qed.

Lemma sorted_NoDup_strict l :
  StronglySorted (λ a b, str_compare a b ≠ Gt) l → NoDup l →
  StronglySorted str_lt l.
Proof.
  induction 1 as [|x l Hl IH Hx]; intros Hnd; [constructor|].
  apply NoDup_cons in Hnd as [Hx' Hnd].
  constructor; [by apply IH|].
  rewrite Forall_forall in *. intros y Hy. specialize (Hx y Hy).
  unfold str_lt. destruct (str_compare x y) eqn:E; [|done|done].
  apply str_compare_eq in E as ->. done.
Qed.

(** ** Tag extraction *)

Lemma split_nonempty sep s : split sep s ≠ [].
Proof.
  destruct s as [|c s]; simpl; [done|].
  destruct (decide (c = sep)); [done|]. by destruct (split sep s).
Qed.

(** The string is the comma-join of its pieces. *)
Lemma join_split sep s : join [sep] (split sep s) = s.
Proof.
  induction s as [|c s IH]; simpl; [done|].
  pose proof (split_nonempty sep s) as Hne.
  destruct (decide (c = sep)) as [->|Hc].
  - destruct (split sep s) as [|p ps]; [done|].
    change (join [sep] ([] :: p :: ps)) with ([] ++ [sep] ++ join [sep] (p :: ps)).
    by rewrite IH.
  - destruct (split sep s) as [|p ps]; [done|].
    destruct ps as [|p' ps]; simpl in *; by rewrite <- IH.
Qed.

Lemma set_add_elem x y s : x ∈ set_add y s ↔ x = y ∨ x ∈ s.
Proof.
  unfold set_add. case_decide as Hy.
  - split; [auto|]. by intros [->|H].
  - rewrite elem_of_app, list_elem_of_singleton. tauto.
Qed.

Lemma set_add_NoDup y s : NoDup s → NoDup (set_add y s).
Proof.
  unfold set_add. intros Hs. case_decide as Hy; [done|].
  apply NoDup_app. split_and!; [done| |apply NoDup_singleton].
  intros x Hx ->%list_elem_of_singleton. done.
Qed.

Lemma addAll_elem x (ts s : list jsstring) :
  x ∈ foldl (λ s tag, set_add tag s) s ts ↔ x ∈ s ∨ x ∈ ts.
Proof.
  revert s. induction ts as [|t ts IH]; intros s; simpl.
  - rewrite elem_of_nil. tauto.
  - rewrite IH, set_add_elem, elem_of_cons. tauto.
Qed.

Lemma addAll_NoDup (ts s : list jsstring) :
  NoDup s → NoDup (foldl (λ s tag, set_add tag s) s ts).
Proof.
  revert s. induction ts as [|t ts IH]; intros s Hs; simpl; [done|].
  by apply IH, set_add_NoDup.
Qed.

(** The extraction adds to the set the very tags that the filter compares. *)
Lemma addShowTags_showTags tagSet show :
  addShowTags tagSet show = foldl (λ s tag, set_add tag s) tagSet (showTags show).
Proof.
  unfold addShowTags, showTags. destruct (tags show) as [|l|s|]; try done.
  - symmetry. apply (foldl_fmap (λ s tag, set_add tag s) tagSet l normTag).
  - destruct (truthy_str s); [|done].
    symmetry. apply (foldl_fmap (λ s tag, set_add tag s) tagSet _ normTag).
Qed.

Lemma foldl_addShowTags_elem x shows s :
  x ∈ foldl addShowTags s shows
  ↔ x ∈ s ∨ ∃ show, show ∈ shows ∧ x ∈ showTags show.
Proof.
  revert s. induction shows as [|sh shows IH]; intros s; simpl.
  - split; [auto|]. intros [H|(show & H & _)]; [done|by apply elem_of_nil in H].
  - rewrite IH, addShowTags_showTags, addAll_elem. split.
    + intros [[H|H]|(show & H1 & H2)]; [by left| |].
      * right. exists sh. split; [left|done].
      * right. exists show. split; [by right|done].
    + intros [H|(show & H1 & H2)]; [by left; left|].
      apply elem_of_cons in H1 as [->|H1]; [by left; right|].
      right. eauto.
Qed.

Lemma foldl_addShowTags_NoDup shows s :
  NoDup s → NoDup (foldl addShowTags s shows).
Proof.
  revert s. induction shows as [|sh shows IH]; intros s Hs; simpl; [done|].
  apply IH. rewrite addShowTags_showTags. by apply addAll_NoDup.
Qed.

Lemma showTags_elem t show :
  t ∈ showTags show
  ↔ ∃ raw, t = toLowerCase (trim raw)
           ∧ ((∃ l, tags show = TagsArray l ∧ raw ∈ l)
              ∨ (∃ s, tags show = TagsString s ∧ s ≠ [] ∧ raw ∈ split "," s)).
Proof.
  unfold showTags. destruct (tags show) as [|l|s|].
  - split; [by intros ?%elem_of_nil|]. by intros (raw & _ & [(l & ? & _)|(s & ? & _)]).
  - rewrite list_elem_of_fmap. split.
    + intros (raw & -> & H). exists raw. split; [done|]. left. eauto.
    + intros (raw & -> & [(l' & [= <-] & H)|(s & ? & _)]); [eauto|done].
  - destruct s as [|c s]; simpl truthy_str; cbv iota.
    + split; [by intros ?%elem_of_nil|].
      by intros (raw & _ & [(l & ? & _)|(s & [= <-] & ? & _)]).
    + rewrite list_elem_of_fmap. split.
      * intros (raw & -> & H). exists raw. split; [done|]. right.
        exists (c :: s). done.
      * intros (raw & -> & [(l' & ? & _)|(s' & [= <-] & _ & H)]); [done|eauto].
  - split; [by intros ?%elem_of_nil|]. by intros (raw & _ & [(l & ? & _)|(s & ? & _)]).
Qed.

Lemma sameButTagForm'_showTags a b : sameButTagForm' a b → showTags a = showTags b.
Proof.
  intros [->|(s & Hs & Ha & ->)]; [done|].
  unfold showTags. rewrite Ha. simpl. by destruct s.
Qed.

Lemma foldl_addShowTags_sameButTagForm shows shows' s :
  Forall2 sameButTagForm' shows shows' →
  foldl addShowTags s shows' = foldl addShowTags s shows.
Proof.
  intros H. revert s. induction H as [|a b l l' Hab Hl IH]; intros s; simpl; [done|].
  by rewrite IH, !addShowTags_showTags, (sameButTagForm'_showTags a b).
Qed.

(** C4, as stated, fails: a show whose tags are the empty string yields no
    tag, the same show with the array of the pieces of that string (one
    empty piece) yields the empty tag. *)
Lemma extractTags_empty_string_differs :
  Forall2 sameButTagForm [emptyStringTags] [emptyPieceTags]
  ∧ join (js ",") [[]] = []
  ∧ extractTags [emptyStringTags] = []
  ∧ extractTags [emptyPieceTags] = [[]]
  ∧ extractTags [emptyStringTags] ≠ extractTags [emptyPieceTags].
Proof.
  split_and!; try done.
  constructor; [|constructor]. right. by exists [].
Qed.

(** C4, amended. Tag extraction yields a list without duplicates, in
    strictly increasing order of code units, of trimmed, lower-cased tags:
    exactly the normalized pieces of the tags of the shows.  Two collections
    that are equal except that one stores a show's tags as a non-empty
    comma-joined string and the other as the array of its comma-separated
    pieces yield the same list.  A show whose tags are absent or of another
    kind contributes nothing. *)
Theorem extractTags_spec shows :
  StronglySorted str_lt (extractTags shows)
  ∧ NoDup (extractTags shows)
  ∧ (∀ t, t ∈ extractTags shows
          ↔ ∃ show raw, show ∈ shows ∧ t = toLowerCase (trim raw)
              ∧ ((∃ l, tags show = TagsArray l ∧ raw ∈ l)
                 ∨ (∃ s, tags show = TagsString s ∧ s ≠ []
                         ∧ raw ∈ split "," s)))
  ∧ (∀ t, t ∈ extractTags shows → trim t = t ∧ toLowerCase t = t)
  ∧ (∀ shows', Forall2 sameButTagForm' shows shows' →
               extractTags shows' = extractTags shows)
  ∧ (∀ pre show post,
        shows = pre ++ show :: post →
        tags show = TagsAbsent ∨ tags show = TagsOther →
        extractTags shows = extractTags (pre ++ post)).
Proof.
  assert (Hnd : NoDup (extractTags shows)).
  { unfold extractTags. rewrite js_sort_perm.
    apply foldl_addShowTags_NoDup, NoDup_nil_2. }
  assert (Hel : ∀ t, t ∈ extractTags shows
                     ↔ ∃ show raw, show ∈ shows ∧ t = toLowerCase (trim raw)
                         ∧ ((∃ l, tags show = TagsArray l ∧ raw ∈ l)
                            ∨ (∃ s, tags show = TagsString s ∧ s ≠ []
                                    ∧ raw ∈ split "," s))).
  { intros t. unfold extractTags.
    rewrite js_sort_elem, foldl_addShowTags_elem. split.
    - intros [H|(show & H1 & H2)]; [by apply elem_of_nil in H|].
      apply showTags_elem in H2 as (raw & H2 & H3). eauto 6.
    - intros (show & raw & H1 & H2 & H3). right. exists show. split; [done|].
      apply showTags_elem. eauto. }
  split_and!; try done.
  - apply sorted_NoDup_strict; [apply defaultSort_sorted|done].
  - intros t (show & raw & _ & -> & _)%Hel.
    split; [apply normTag_trimmed|apply normTag_lower].
  - intros shows' H. unfold extractTags.
    by rewrite (foldl_addShowTags_sameButTagForm shows shows').
  - intros pre show post -> Ht. unfold extractTags.
    rewrite !foldl_app. simpl.
    replace (addShowTags (foldl addShowTags [] pre) show)
      with (foldl addShowTags [] pre); [done|].
    unfold addShowTags. by destruct Ht as [-> | ->].
Qed.

(** [extractTags_spec] at the spec's example: the comma-string form and the
    array form of the tags of "A" give the same tags, "x" and "y". *)
Lemma extractTags_spec_witness :
  extractTags [set_tags (TagsArray (split "," (js "x, y"))) showA; showB]
  = extractTags [showA; showB]
  ∧ extractTags [showA; showB] = [js "x"; js "y"].
Proof.
  split; [|reflexivity].
  apply (proj1 (proj2 (proj2 (proj2 (proj2 (extractTags_spec [showA; showB])))))).
  constructor; [|constructor; [by left|constructor]].
  right. exists (js "x, y"). by split_and!.
Defined.

(** ** Random selection *)

Lemma selectRandom_nil r : selectRandom r [] = None.
Proof. reflexivity. Qed.







Lemma selectRandom_elem r candidates show :
  selectRandom r candidates = Some show → show ∈ candidates.
Proof.
  unfold selectRandom. destruct (length candidates =? 0); [done|].
  destruct (randomIndex r (length candidates) <? 0)%Z; [done|].
  apply list_elem_of_lookup_2.
Qed.



(** ** Assisted selection *)

Lemma findByTitle_find t candidates :
  findByTitle (JStr t) candidates
  = inr (find (λ show, bool_decide (ciEqual (title show) t)) candidates).
Proof.
  induction candidates as [|show rest IH]; simpl; [done|].
  unfold ciEqual at 1. destruct (decide (toLowerCase (title show) = toLowerCase t)).
  - by rewrite bool_decide_eq_true_2.
  - by rewrite bool_decide_eq_false_2.
Qed.

Lemma findByTitle_Some suggested candidates show :
  findByTitle suggested candidates = inr (Some show) →
  ∃ t, suggested = JStr t ∧ show ∈ candidates ∧ ciEqual (title show) t.
Proof.
  destruct suggested as [| | | |t| |];
    try (destruct candidates; simpl; [done|discriminate]).
  rewrite findByTitle_find. intros [= H]. exists t. split; [done|].
  apply find_some in H as [H1 H2].
  split; [by apply list_elem_of_In|]. by apply bool_decide_eq_true in H2.
Qed.

Lemma findByTitle_None suggested candidates :
  findByTitle suggested candidates = inr None →
  ¬ titleMatches suggested candidates.
Proof.
  intros H (show & t & Hin & -> & Hci).
  rewrite findByTitle_find in H. injection H as H.
  apply list_elem_of_In in Hin.
  pose proof (find_none _ _ H show Hin) as Hf. simpl in Hf.
  by apply bool_decide_eq_false in Hf.
Qed.

Lemma findByTitle_throws suggested candidates e :
  findByTitle suggested candidates = inl e →
  ¬ titleMatches suggested candidates.
Proof.
  intros H (show & t & _ & -> & _). by rewrite findByTitle_find in H.
Qed.

Lemma truthy_JStr t : truthy (JStr t) = true → t ≠ [].
Proof. by destruct t. Qed.

Lemma credentialMissing_test cfg :
  negb (truthy_str (hf_key cfg)) || bool_decide (hf_key cfg = js "PUT_KEY_HERE")
  = true ↔ credentialMissing cfg.
Proof.
  unfold credentialMissing.
  rewrite orb_true_iff, negb_true_iff, bool_decide_eq_true.
  destruct (hf_key cfg); simpl; intuition congruence.
Qed.

Ltac run_monad :=
  cbv [tryCatch bind ret throw emit lift] in *.

Lemma elem_of_snoc_request req (tr : list Event) ev :
  NetworkRequest req ∈ tr ++ [ev] →
  NetworkRequest req ∈ tr ∨ ev = NetworkRequest req.
Proof.
  rewrite elem_of_app, list_elem_of_singleton. intros [H|H]; auto.
Qed.

(** Closes a case of [fetchHuggingFace_run] in which the call throws. *)
Ltac fetch_throws :=
  try case_decide;
  (eexists; split; [reflexivity|]); intros ?;
  (split; [done|]); intros (? & ? & ? & ? & ? & ? & ? & ?);
  simplify_eq; congruence.

(** The call sends one request and yields the parsed span, or throws. *)
Lemma fetchHuggingFace_run env prompt tr :
  ∃ out,
    fetchHuggingFace env prompt tr
    = (out, tr ++ [NetworkRequest (requestFor (config env) prompt)])
    ∧ ∀ res, out = inr res
        ↔ ∃ resp data span,
            fetch env (requestFor (config env) prompt) = inr resp
            ∧ ok resp = true
            ∧ json resp = inr data
            ∧ generatedTextMatch data = inr (Some span)
            ∧ JSON_parse env span = inr res.
Proof.
  unfold fetchHuggingFace. run_monad.
  destruct (fetch env _) as [e|resp] eqn:Hfetch; [fetch_throws|].
  destruct (ok resp) eqn:Hok; cbn [negb]; [|fetch_throws].
  destruct (json resp) as [e|data] eqn:Hjson; [fetch_throws|].
  destruct (generatedTextMatch data) as [e|[span|]] eqn:Hmatch;
    [fetch_throws| |fetch_throws].
  destruct (JSON_parse env span) as [e|res'] eqn:Hparse; [fetch_throws|].
  eexists; split; [reflexivity|]. intros res. split.
  - intros [= <-]. eauto 10.
  - intros (? & ? & ? & ? & ? & ? & ? & ?). simplify_eq. congruence.
Qed.

(** Every run of the selector returns; it returns either the random pick or
    a candidate that bears the title suggested in the answer; a request is
    sent only when the call is issued, and it carries the prompt built from
    the truncated list. *)
Lemma selectWithAI_run env candidates tr :
  ∃ v tr',
    selectWithAI env candidates tr = (inr v, tr')
    ∧ (v = selectRandom (mathRandom env) candidates
       ∨ ∃ show res t,
           v = Some show ∧ answered env candidates res
           ∧ getProp (js "title") res = JStr t ∧ t ≠ []
           ∧ show ∈ candidates ∧ ciEqual (title show) t)
    ∧ ∀ req, NetworkRequest req ∈ tr' →
        NetworkRequest req ∈ tr
        ∨ (callIssued env candidates ∧ req = requestOf env candidates).
Proof.
  unfold selectWithAI.
  destruct (aiToggle env) as [[]|] eqn:Htog;
    [|by run_monad; eauto 8..].
  destruct (maxPayloadBytes (config env)
            <? blobSize (buildPrompt (take (maxCandidates (config env)) candidates)))%Z
    eqn:Hsize.
  { run_monad. do 2 eexists. split; [reflexivity|]. split; [by left|].
    intros req [H|[=]]%elem_of_snoc_request. by left. }
  apply Z.ltb_ge in Hsize.
  destruct (decide (provider (config env) = js "hf")) as [Hprov|Hprov]; cycle 1.
  { run_monad. destruct (showToastDefined env);
      do 2 eexists; (split; [reflexivity|]); (split; [by left|]).
    - intros req [[H|[=]]%elem_of_snoc_request|[=]]%elem_of_snoc_request. by left.
    - intros req [H|[=]]%elem_of_snoc_request. by left. }
  destruct (negb (truthy_str (hf_key (config env)))
            || bool_decide (hf_key (config env) = js "PUT_KEY_HERE")) eqn:Hkey.
  { run_monad. destruct (showToastDefined env);
      do 2 eexists; (split; [reflexivity|]); (split; [by left|]).
    - intros req [[H|[=]]%elem_of_snoc_request|[=]]%elem_of_snoc_request. by left.
    - intros req [H|[=]]%elem_of_snoc_request. by left. }
  assert (Hcall : callIssued env candidates).
  { split_and!; try done. rewrite <- credentialMissing_test. by rewrite Hkey. }
  assert (Htrace : ∀ evs req,
             Forall (λ ev, ∀ req, ev ≠ NetworkRequest req) evs →
             NetworkRequest req
               ∈ (tr ++ [NetworkRequest (requestOf env candidates)]) ++ evs →
             NetworkRequest req ∈ tr
             ∨ (callIssued env candidates ∧ req = requestOf env candidates)).
  { intros evs req Hevs [[H|H]%elem_of_snoc_request|H]%elem_of_app.
    - by left.
    - injection H as ->. by right.
    - rewrite Forall_forall in Hevs. by destruct (Hevs _ H req). }
  fold (promptOf env candidates).
  destruct (fetchHuggingFace_run env (promptOf env candidates) tr)
    as (out & Hrun & Hout).
  fold (requestOf env candidates) in Hrun, Hout.
  run_monad. rewrite Hrun.
  destruct out as [e|res].
  { destruct (showToastDefined env);
      do 2 eexists; (split; [reflexivity|]); (split; [by left|]); intros req.
    - rewrite <- !(assoc_L (++) (tr ++ _)). apply Htrace.
      repeat constructor; done.
    - apply Htrace. repeat constructor; done. }
  assert (Hans : answered env candidates res).
  { split; [done|]. by apply Hout. }
  destruct (truthy res && truthy (getProp (js "title") res)) eqn:Htruthy; cycle 1.
  { do 2 eexists. split; [reflexivity|]. split; [by left|]. intros req.
    apply Htrace. repeat constructor; done. }
  apply andb_true_iff in Htruthy as [_ Htitle].
  destruct (findByTitle (getProp (js "title") res) candidates)
    as [e|[show|]] eqn:Hfind.
  - destruct (showToastDefined env);
      do 2 eexists; (split; [reflexivity|]); (split; [by left|]); intros req.
    + rewrite <- !(assoc_L (++) (tr ++ _)). apply Htrace.
      repeat constructor; done.
    + apply Htrace. repeat constructor; done.
  - apply findByTitle_Some in Hfind as (t & Ht & Hin & Hci).
    do 2 eexists. split; [reflexivity|]. split.
    + right. exists show, res, t. split_and!; try done.
      rewrite Ht in Htitle. by apply truthy_JStr.
    + intros req. rewrite <- (app_nil_r (tr ++ _)). apply Htrace. constructor.
  - do 2 eexists. split; [reflexivity|]. split; [by left|]. intros req.
    apply Htrace. repeat constructor; done.
Qed.

Lemma selectWithAI_off env candidates tr :
  aiToggle env ≠ Some true →
  selectWithAI env candidates tr
  = (inr (selectRandom (mathRandom env) candidates), tr).
Proof. unfold selectWithAI. by destruct (aiToggle env) as [[]|]. Qed.

Lemma selectWithAI_too_large env candidates tr :
  aiToggle env = Some true →
  (maxPayloadBytes (config env) < blobSize (promptOf env candidates))%Z →
  selectWithAI env candidates tr
  = (inr (selectRandom (mathRandom env) candidates),
     tr ++ [ConsoleWarn (js "AI payload too large, falling back to random")]).
Proof.
  intros Htog Hsize. unfold selectWithAI. rewrite Htog.
  fold (promptOf env candidates).
  apply Z.ltb_lt in Hsize. by rewrite Hsize.
Qed.

(** The value returned once the service has answered with [res]. *)
Lemma selectWithAI_answered env candidates res tr :
  answered env candidates res →
  (selectWithAI env candidates tr).1
  = inr (if truthy res && truthy (getProp (js "title") res)
         then match findByTitle (getProp (js "title") res) candidates with
              | inr (Some show) => Some show
              | _ => selectRandom (mathRandom env) candidates
              end
         else selectRandom (mathRandom env) candidates).
Proof.
  intros [(Htog & Hsize & Hprov & Hkey) Hans].
  unfold selectWithAI. rewrite Htog. fold (promptOf env candidates).
  apply Z.ltb_ge in Hsize. rewrite Hsize.
  rewrite decide_True by done.
  rewrite <- credentialMissing_test in Hkey.
  apply not_true_is_false in Hkey. rewrite Hkey.
  destruct (fetchHuggingFace_run env (promptOf env candidates) tr)
    as (out & Hrun & Hout).
  apply Hout in Hans as ->.
  run_monad. rewrite Hrun.
  destruct (truthy res && truthy (getProp (js "title") res)); [|done].
  destruct (findByTitle _ candidates) as [e|[show|]]; try done.
  by destruct (showToastDefined env).
Qed.





(** C5, as stated, fails: a prompt of exactly [maxPayloadBytes] bytes is not
    under the ceiling, and yet the request is sent. *)
Lemma selectWithAI_request_at_ceiling :
  blobSize (promptOf offlineEnv [longTitleShow])
  = maxPayloadBytes (config offlineEnv)
  ∧ ¬ (blobSize (promptOf offlineEnv [longTitleShow])
       < maxPayloadBytes (config offlineEnv))%Z
  ∧ ¬ noRequest (selectWithAI offlineEnv [longTitleShow] []).2.
Proof.
  assert (Hsize : blobSize (promptOf offlineEnv [longTitleShow]) = 8000%Z)
    by (vm_compute; reflexivity).
  split_and!.
  - by rewrite Hsize.
  - rewrite Hsize. simpl. lia.
  - intros H. apply (H (requestOf offlineEnv [longTitleShow])).
    assert (Hhd : head (selectWithAI offlineEnv [longTitleShow] []).2
                  = Some (NetworkRequest (requestOf offlineEnv [longTitleShow])))
      by (vm_compute; reflexivity).
    destruct (selectWithAI offlineEnv [longTitleShow] []).2 as [|ev evs];
      [done|].
    injection Hhd as ->. left.
Qed.

(** C5, amended. The selector builds the prompt from the candidates
    truncated to [maxCandidates]; a request is sent only if the byte size of
    that prompt is at most [maxPayloadBytes], and it carries that prompt; if
    the byte size exceeds [maxPayloadBytes] the selector returns the random
    pick over the candidates and sends no request; when the call is issued
    (the size at most the ceiling, the toggle on, the provider supported and
    the credential set) the request is sent. *)
Theorem selectWithAI_payload_gate env candidates tr :
  promptOf env candidates
  = buildPrompt (take (maxCandidates (config env)) candidates)
  ∧ (∀ out tr' req,
       selectWithAI env candidates tr = (out, tr') →
       NetworkRequest req ∈ tr' → NetworkRequest req ∉ tr →
       (blobSize (promptOf env candidates) <= maxPayloadBytes (config env))%Z
       ∧ inputs req = promptOf env candidates)
  ∧ ((maxPayloadBytes (config env) < blobSize (promptOf env candidates))%Z →
     ∃ tr', selectWithAI env candidates tr
            = (inr (selectRandom (mathRandom env) candidates), tr')
            ∧ ∀ req, NetworkRequest req ∈ tr' → NetworkRequest req ∈ tr)
  ∧ (callIssued env candidates →
     ∃ out tr', selectWithAI env candidates tr = (out, tr')
                ∧ NetworkRequest (requestOf env candidates) ∈ tr').
Proof.
  split_and!; [done|..].
  - intros out tr' req Hrun Hin Hnin.
    destruct (selectWithAI_run env candidates tr) as (v & tr2 & Hrun2 & _ & Htr).
    rewrite Hrun in Hrun2. injection Hrun2 as -> ->.
    destruct (Htr req Hin) as [H|[(_ & Hsize & _) ->]]; [done|].
    split; [exact Hsize|done].
  - intros Hsize. destruct (decide (aiToggle env = Some true)) as [Htog|Htog].
    + rewrite (selectWithAI_too_large _ _ _ Htog Hsize).
      eexists. split; [reflexivity|].
      intros req [H|[=]]%elem_of_snoc_request. done.
    + rewrite (selectWithAI_off _ _ _ Htog). eauto.
  - intros (Htog & Hsize & Hprov & Hkey).
    unfold selectWithAI. rewrite Htog. fold (promptOf env candidates).
    apply Z.ltb_ge in Hsize. rewrite Hsize.
    rewrite decide_True by done.
    rewrite <- credentialMissing_test in Hkey.
    apply not_true_is_false in Hkey. rewrite Hkey.
    destruct (fetchHuggingFace_run env (promptOf env candidates) tr)
      as (out & Hrun & _).
    fold (requestOf env candidates) in Hrun.
    assert (Hsub : ∀ evs, NetworkRequest (requestOf env candidates)
                          ∈ (tr ++ [NetworkRequest (requestOf env candidates)]) ++ evs).
    { intros evs. rewrite !elem_of_app, list_elem_of_singleton. auto. }
    run_monad. rewrite Hrun. destruct out as [e|res].
    + destruct (showToastDefined env); do 2 eexists; (split; [reflexivity|]).
      * rewrite <- !(assoc_L (++) (tr ++ _)). apply Hsub.
      * apply Hsub.
    + destruct (truthy res && truthy (getProp (js "title") res)).
      * destruct (findByTitle _ candidates) as [e|[show|]].
        -- destruct (showToastDefined env); do 2 eexists; (split; [reflexivity|]).
           ++ rewrite <- !(assoc_L (++) (tr ++ _)). apply Hsub.
           ++ apply Hsub.
        -- do 2 eexists. split; [reflexivity|].
           rewrite <- (app_nil_r (tr ++ _)). apply Hsub.
        -- do 2 eexists. split; [reflexivity|]. apply Hsub.
      * do 2 eexists. split; [reflexivity|]. apply Hsub.
Qed.

(** [selectWithAI_payload_gate] on a prompt of 8001 bytes: the random pick,
    and no request. *)
Lemma selectWithAI_payload_gate_witness :
  ∃ tr', selectWithAI offlineEnv
           [plainShow (replicate (Z.to_nat 7811) "a"%char) TagsAbsent None] []
         = (inr (selectRandom 0%Q
                   [plainShow (replicate (Z.to_nat 7811) "a"%char) TagsAbsent None]),
            tr')
         ∧ ∀ req, NetworkRequest req ∈ tr' → NetworkRequest req ∈ [].
Proof.
  apply (proj1 (proj2 (proj2 (selectWithAI_payload_gate offlineEnv
           [plainShow (replicate (Z.to_nat 7811) "a"%char) TagsAbsent None] [])))).
  vm_compute. reflexivity.
Defined.




Lemma selectRandom_None_or_elem r candidates :
  selectRandom r candidates = None
  ∨ ∃ show, selectRandom r candidates = Some show ∧ show ∈ candidates.
Proof.
  destruct (selectRandom r candidates) as [show|] eqn:H; [right|by left].
  exists show. split; [done|]. by eapply selectRandom_elem.
Qed.

(** C10. [selectRandom] and [selectWithAI] return no show or one of the
    candidates they were given; when the service suggests a title, the
    match is looked up in the whole candidate list, also beyond the
    [maxCandidates] candidates listed in the prompt. *)
Theorem selectors_pick_candidates env candidates tr r :
  (selectRandom r candidates = None
   ∨ ∃ show, selectRandom r candidates = Some show ∧ show ∈ candidates)
  ∧ (∃ v tr', selectWithAI env candidates tr = (inr v, tr')
              ∧ (v = None ∨ ∃ show, v = Some show ∧ show ∈ candidates))
  ∧ (∀ res t show,
       answered env candidates res →
       getProp (js "title") res = JStr t → t ≠ [] →
       show ∈ candidates → ciEqual (title show) t →
       ∃ show', (selectWithAI env candidates tr).1 = inr (Some show')
                ∧ show' ∈ candidates ∧ ciEqual (title show') t).
Proof.
  split_and!.
  - apply selectRandom_None_or_elem.
  - destruct (selectWithAI_run env candidates tr) as (v & tr' & Hrun & Hv & _).
    exists v, tr'. split; [done|].
    destruct Hv as [->|(show & _ & _ & -> & _ & _ & _ & Hin & _)].
    + apply selectRandom_None_or_elem.
    + right. eauto.
  - intros res t show Hans Ht Hne Hin Hci.
    rewrite (selectWithAI_answered _ _ _ _ Hans), Ht, findByTitle_find.
    assert (truthy res = true) as -> by (by destruct res).
    assert (truthy (JStr t) = true) as -> by (by destruct t).
    simpl. destruct (find _ candidates) as [show'|] eqn:Hfind.
    + exists show'. split; [done|]. apply find_some in Hfind as [H1 H2].
      split; [by apply list_elem_of_In|by apply bool_decide_eq_true in H2].
    + apply list_elem_of_In in Hin.
      pose proof (find_none _ _ Hfind show Hin) as Hf. simpl in Hf.
      by apply bool_decide_eq_false in Hf.
Qed.

(** [selectors_pick_candidates] on twenty-one candidates and the answer
    "s21": the last candidate, which the prompt does not list, is found. *)
Lemma selectors_pick_candidates_witness :
  ∃ show',
    (selectWithAI (answerEnv (titleObject (js "s21"))
                     (parseOnly (titleObject (js "s21"))
                        (JObj [(js "title", JStr (js "s21"))])))
                  numberedShows []).1
    = inr (Some show')
    ∧ show' ∈ numberedShows ∧ ciEqual (title show') (js "s21").
Proof.
  apply (proj2 (proj2 (selectors_pick_candidates
           (answerEnv (titleObject (js "s21"))
              (parseOnly (titleObject (js "s21"))
                 (JObj [(js "title", JStr (js "s21"))])))
           numberedShows [] 0%Q))
         (JObj [(js "title", JStr (js "s21"))]) (js "s21")
         (plainShow (js "S21") TagsAbsent None)).
  - split.
    + split_and!; [done|vm_compute; discriminate|done|].
      intros [H|H]; vm_compute in H; discriminate.
    + eexists _, _, _. split_and!; reflexivity.
  - reflexivity.
  - done.
  - apply list_elem_of_In. vm_compute. tauto.
  - reflexivity.
Defined.

Example selectWithAI_beyond_truncation :
  (selectWithAI (answerEnv (titleObject (js "s21"))
                   (parseOnly (titleObject (js "s21"))
                      (JObj [(js "title", JStr (js "s21"))])))
                numberedShows []).1
  = inr (Some (plainShow (js "S21") TagsAbsent None))
  ∧ length (take (maxCandidates configured) numberedShows) = 20
  ∧ numberedShows !! 20 = Some (plainShow (js "S21") TagsAbsent None).
Proof. split_and!; vm_compute; reflexivity. Qed.

(** ** The span extracted from the answer *)

Lemma fromFirst_spec c s rest :
  fromFirst c s = Some rest ↔ ∃ pre, s = pre ++ c :: rest ∧ c ∉ pre.
Proof.
  revert rest. induction s as [|x s IH]; intros rest; simpl.
  - split; [done|]. intros (pre & H & _). by destruct pre.
  - destruct (decide (x = c)) as [->|Hx].
    + split.
      * intros [= <-]. exists []. split; [done|]. apply not_elem_of_nil.
      * intros (pre & H & Hpre). destruct pre as [|y pre]; [by simplify_eq/=|].
        simplify_eq/=. destruct Hpre. left.
    + rewrite IH. split.
      * intros (pre & -> & Hpre). exists (x :: pre). split; [done|].
        rewrite not_elem_of_cons. split; [congruence|done].
      * intros (pre & H & Hpre). destruct pre as [|y pre]; [by simplify_eq/=|].
        simplify_eq/=. exists pre. split; [done|].
        by apply not_elem_of_cons in Hpre as [_ ?].
Qed.

Lemma uptoLast_None c s : uptoLast c s = None ↔ c ∉ s.
Proof.
  induction s as [|x s IH]; simpl.
  - split; [intros _; apply not_elem_of_nil|done].
  - destruct (uptoLast c s) as [p|].
    + split; [done|]. intros H. apply not_elem_of_cons in H as [_ H].
      by apply IH in H.
    + destruct (decide (x = c)) as [->|Hx].
      * split; [done|]. intros H. destruct H. left.
      * split; [|done]. intros _. apply not_elem_of_cons.
        split; [congruence|by apply IH].
Qed.

Lemma uptoLast_spec c s body :
  uptoLast c s = Some body
  ↔ ∃ mid post, s = mid ++ c :: post ∧ (c ∉ post) ∧ body = mid ++ [c].
Proof.
  revert body. induction s as [|x s IH]; intros body; simpl.
  - split; [done|]. intros (mid & post & H & _). by destruct mid.
  - destruct (uptoLast c s) as [p|] eqn:Hs.
    + split.
      * intros [= <-]. destruct (proj1 (IH p) eq_refl) as (mid & post & -> & Hp & ->).
        by exists (x :: mid), post.
      * intros (mid & post & H & Hp & ->). destruct mid as [|y mid]; simplify_eq/=.
        -- apply uptoLast_None in Hp. congruence.
        -- f_equal. simpl. f_equal.
           assert (Some p = Some (mid ++ [c])) as [= ->]; [|done].
           apply IH. eauto.
    + apply uptoLast_None in Hs. destruct (decide (x = c)) as [->|Hx].
      * split.
        -- intros [= <-]. by exists [], s.
        -- intros (mid & post & H & Hp & ->). destruct mid as [|y mid]; [done|].
           simplify_eq/=. destruct Hs. rewrite elem_of_app, elem_of_cons. auto.
      * split; [done|]. intros (mid & post & H & Hp & ->).
        destruct mid as [|y mid]; simplify_eq/=.
        destruct Hs. rewrite elem_of_app, elem_of_cons. auto.
Qed.

(** The match runs from the first opening brace to the last closing brace
    after it. *)
Lemma matchBraces_spec text span :
  matchBraces text = Some span
  ↔ ∃ pre mid post,
      text = pre ++ "{"%char :: mid ++ "}"%char :: post
      ∧ ("{"%char ∉ pre) ∧ ("}"%char ∉ post)
      ∧ span = "{"%char :: mid ++ ["}"%char].
Proof.
  unfold matchBraces. split.
  - destruct (fromFirst "{" text) as [rest|] eqn:Hf; [|done].
    destruct (uptoLast "}" rest) as [body|] eqn:Hu; [|done].
    intros [= <-].
    apply fromFirst_spec in Hf as (pre & -> & Hpre).
    apply uptoLast_spec in Hu as (mid & post & -> & Hpost & ->).
    by exists pre, mid, post.
  - intros (pre & mid & post & -> & Hpre & Hpost & ->).
    assert (fromFirst "{" (pre ++ "{"%char :: mid ++ "}"%char :: post)
            = Some (mid ++ "}"%char :: post)) as ->
      by (apply fromFirst_spec; eauto).
    assert (uptoLast "}" (mid ++ "}"%char :: post) = Some (mid ++ ["}"%char])) as ->
      by (apply uptoLast_spec; eauto).
    done.
Qed.

Lemma fromFirst_app c pre rest :
  ∃ pre', fromFirst c (pre ++ c :: rest) = Some (pre' ++ rest).
Proof.
  induction pre as [|x pre IH]; simpl.
  - exists []. by rewrite decide_True.
  - destruct (decide (x = c)) as [->|Hx]; [|done].
    exists (pre ++ [c]). by rewrite <- (assoc_L (++)).
Qed.

(** There is no match exactly when no opening brace is followed by a
    closing brace. *)
Lemma matchBraces_None text :
  matchBraces text = None
  ↔ ∀ pre mid post, text ≠ pre ++ "{"%char :: mid ++ "}"%char :: post.
Proof.
  split.
  - intros Hnone pre mid post ->. unfold matchBraces in Hnone.
    destruct (fromFirst_app "{" pre (mid ++ "}"%char :: post)) as [pre' Hf].
    rewrite Hf in Hnone.
    destruct (uptoLast "}" (pre' ++ mid ++ "}"%char :: post)) eqn:Hu; [done|].
    apply uptoLast_None in Hu. destruct Hu.
    rewrite !elem_of_app, elem_of_cons. auto.
  - intros Hno. destruct (matchBraces text) as [span|] eqn:Hm; [|done].
    apply matchBraces_spec in Hm as (pre & mid & post & -> & _).
    by destruct (Hno pre mid post).
Qed.

Lemma generatedTextMatch_text data first text :
  index0 data = inr first →
  getProp (js "generated_text") first = JStr text →
  generatedTextMatch data = inr (matchBraces text).
Proof.
  intros Hi Hg. unfold generatedTextMatch. rewrite Hi.
  destruct first; try done; by rewrite Hg.
Qed.

(** C6, as stated, fails: in a text with two objects the span taken is not
    the first top-level span but the whole stretch from the first opening
    brace to the last closing brace, and the call throws although the first
    top-level span parses. *)
Lemma matchBraces_not_first_span :
  firstTopLevelSpan twoObjects = Some (titleObject (js "A"))
  ∧ matchBraces twoObjects = Some twoObjects
  ∧ matchBraces twoObjects ≠ firstTopLevelSpan twoObjects
  ∧ (fetchHuggingFace
       (answerEnv twoObjects
          (parseOnly (titleObject (js "A")) (JObj [(js "title", JStr (js "A"))])))
       [] []).1
    = inl syntaxError.
Proof. split_and!; by vm_compute. Qed.

(** C6, amended. When the response carries a text in
    [data[0].generated_text], the extraction step takes the stretch of the
    text from its first opening brace to the last closing brace after it
    and parses exactly that substring as JSON; if the text has no opening
    brace followed by a closing brace, or the parse throws, the call
    throws. *)
Theorem fetchHuggingFace_extracts env prompt tr resp data first text :
  fetch env (requestFor (config env) prompt) = inr resp →
  ok resp = true →
  json resp = inr data →
  index0 data = inr first →
  getProp (js "generated_text") first = JStr text →
  (fetchHuggingFace env prompt tr).1
  = match matchBraces text with
    | Some span =>
        match JSON_parse env span with
        | inr res => inr res
        | inl e =>
            inl (if decide (exn_name e = js "AbortError")
                 then Error (js "AI request timeout") else e)
        end
    | None => inl (Error (js "No valid JSON found in response"))
    end
  ∧ (∀ span,
       matchBraces text = Some span
       ↔ ∃ pre mid post,
           text = pre ++ "{"%char :: mid ++ "}"%char :: post
           ∧ ("{"%char ∉ pre) ∧ ("}"%char ∉ post)
           ∧ span = "{"%char :: mid ++ ["}"%char])
  ∧ (matchBraces text = None
     ↔ ∀ pre mid post, text ≠ pre ++ "{"%char :: mid ++ "}"%char :: post).
Proof.
  intros Hfetch Hok Hjson Hi Hg.
  split_and!; [|apply matchBraces_spec|apply matchBraces_None].
  unfold fetchHuggingFace. run_monad.
  rewrite Hfetch, Hok, Hjson, (generatedTextMatch_text _ _ _ Hi Hg). simpl.
  destruct (matchBraces text) as [span|]; [|done].
  destruct (JSON_parse env span) as [e|res]; [|done].
  simpl. by case_decide.
Qed.

(** [fetchHuggingFace_extracts] on a text with words around one object. *)
Lemma fetchHuggingFace_extracts_witness :
  (fetchHuggingFace
     (answerEnv (js "Sure: " ++ titleObject (js "A") ++ js " enjoy")
        (parseOnly (titleObject (js "A")) (JObj [(js "title", JStr (js "A"))])))
     [] []).1
  = inr (JObj [(js "title", JStr (js "A"))]).
Proof.
  destruct (fetchHuggingFace_extracts
              (answerEnv (js "Sure: " ++ titleObject (js "A") ++ js " enjoy")
                 (parseOnly (titleObject (js "A"))
                    (JObj [(js "title", JStr (js "A"))])))
              [] [] _ _ _ (js "Sure: " ++ titleObject (js "A") ++ js " enjoy")
              eq_refl eq_refl eq_refl eq_refl eq_refl) as [H _].
  rewrite H. reflexivity.
Defined.

(** ** The presenter *)

Lemma flat_map_flat_map {A B C} (f : A → list B) (g : B → list C) l :
  flat_map g (flat_map f l) = flat_map (λ x, flat_map g (f x)) l.
Proof.
  induction l as [|x l IH]; simpl; [done|]. by rewrite flat_map_app, IH.
Qed.

(** The five replacements in a row escape each character once. *)
Lemma escapeHtml_htmlEscape s : escapeHtml s = htmlEscape s.
Proof.
  unfold escapeHtml, htmlEscape. destruct s as [|c0 s0]; [done|].
  cbn [truthy_str negb]. generalize (c0 :: s0). clear. intros s.
  unfold replaceAll. rewrite !flat_map_flat_map.
  apply flat_map_ext. intros c.
  by destruct c as [[] [] [] [] [] [] [] []].
Qed.

Lemma escape_unit_clean c : Forall (λ x, ¬ markupChar x) (escape_unit c).
Proof.
  unfold markupChar.
  destruct c as [[] [] [] [] [] [] [] []]; vm_compute;
    repeat constructor; intros [H|[H|[H|H]]]; discriminate.
Qed.

Lemma htmlEscape_clean s : Forall (λ x, ¬ markupChar x) (htmlEscape s).
Proof.
  unfold htmlEscape. induction s as [|c s IH]; simpl; [constructor|].
  apply Forall_app. split; [apply escape_unit_clean|done].
Qed.

Lemma cardDescription_twoPieces show :
  cardDescription show = twoPieces (descriptionText show).
Proof.
  unfold cardDescription, twoPieces.
  destruct (splitSentences (descriptionText show)) as [|s1 [|s2 [|s3 l]]];
    try done.
  simpl. by rewrite <- !(assoc_L (++)).
Qed.

(** C9. The card is to show the description cut to its first two
    sentences, a sentence ending at ".", "!" or "?" (the script's own
    comment says: first two sentences).  On "Hi! There? Yes" the script
    shows "Hi. There.": the pieces are joined again with full stops, so the
    marks of the description are lost and the text shown is neither its
    first two sentences nor a prefix of it. *)
Lemma cardDescription_loses_marks :
  descriptionText chattyShow = js "Hi! There? Yes"
  ∧ firstTwoSentences (js "Hi! There? Yes") = js "Hi! There?"
  ∧ cardDescription chattyShow = js "Hi. There."
  ∧ cardDescription chattyShow ≠ firstTwoSentences (descriptionText chattyShow)
  ∧ ¬ (cardDescription chattyShow `prefix_of` descriptionText chattyShow)
  ∧ resultHTML (showResult (Some chattyShow) blankPanels)
    = indent ++ indent ++ titleMarkup chattyShow
      ++ indent ++ js "<p class=" ++ dq ++ js "result-description" ++ dq
      ++ js ">Hi. There.</p>"
      ++ indent ++ buttonMarkup ++ nl ++ js "  ".
Proof.
  split_and!; try (by vm_compute).
  intros [k Hk]. vm_compute in Hk. discriminate.
Qed.

(** What the presenter renders.  For no show it hides the result panel and
    shows the empty-state panel.  For a show it renders into the result
    panel a card with the title HTML-escaped in its heading and with the
    description HTML-escaped in its paragraph, the description being the
    first of [description], [notes], [overview] that is not empty, reduced,
    when splitting at runs of ".", "!" and "?" gives more than two pieces,
    to the first two pieces each followed by a full stop; the escaped texts
    hold none of the characters that delimit markup; the detail button is
    bound to the show. *)
Lemma showResult_card p :
  (resultHidden (showResult None p) = true
   ∧ noResultsHidden (showResult None p) = false
   ∧ resultHTML (showResult None p) = resultHTML p)
  ∧ ∀ show,
      resultHidden (showResult (Some show) p) = false
      ∧ noResultsHidden (showResult (Some show) p) = true
      ∧ detailTarget (showResult (Some show) p) = Some show
      ∧ (∃ poster,
           resultHTML (showResult (Some show) p)
           = indent ++ poster
             ++ indent ++ js "<h3 class=" ++ dq ++ js "result-title" ++ dq
             ++ js ">" ++ htmlEscape (title show) ++ js "</h3>"
             ++ indent ++ js "<p class=" ++ dq ++ js "result-description" ++ dq
             ++ js ">" ++ htmlEscape (twoPieces (descriptionText show))
             ++ js "</p>"
             ++ indent ++ buttonMarkup ++ nl ++ js "  ")
      ∧ Forall (λ x, ¬ markupChar x) (htmlEscape (title show))
      ∧ Forall (λ x, ¬ markupChar x)
               (htmlEscape (twoPieces (descriptionText show)))
      ∧ descriptionText show
        = (if truthy_opt (description show) then default [] (description show)
           else if truthy_opt (notes show) then default [] (notes show)
           else if truthy_opt (overview show) then default [] (overview show)
           else []).
Proof.
  split; [done|]. intros show. split_and!; try done.
  - exists (posterMarkup show). simpl. unfold cardMarkup, titleMarkup,
      descriptionMarkup.
    rewrite !escapeHtml_htmlEscape, cardDescription_twoPieces.
    by rewrite <- !(assoc_L (++)).
  - apply htmlEscape_clean.
  - apply htmlEscape_clean.
  - unfold descriptionText, orElse.
    destruct (description show) as [[|??]|], (notes show) as [[|??]|],
      (overview show) as [[|??]|]; done.
Qed.

(** On the show "A<b>" the heading holds the escaped title. *)
Example showResult_card_escapes :
  ∃ poster,
    resultHTML (showResult (Some (plainShow (js "A<b>") TagsAbsent None))
                           blankPanels)
    = indent ++ poster
      ++ indent ++ js "<h3 class=" ++ dq ++ js "result-title" ++ dq
      ++ js ">" ++ js "A&lt;b&gt;" ++ js "</h3>"
      ++ indent ++ js "<p class=" ++ dq ++ js "result-description" ++ dq
      ++ js ">" ++ js "</p>"
      ++ indent ++ buttonMarkup ++ nl ++ js "  ".
Proof.
  destruct (proj2 (showResult_card blankPanels)
              (plainShow (js "A<b>") TagsAbsent None))
    as (_ & _ & _ & [poster H] & _).
  exists poster. exact H.
Qed.

(** In the heading the title is escaped; in the [alt] attribute of the
    poster it is inserted as it is. *)
Example posterMarkup_raw_title :
  titleMarkup quotedShow
  = js "<h3 class=" ++ dq ++ js "result-title" ++ dq ++ js ">A&quot;B</h3>"
  ∧ posterMarkup quotedShow
    = js "<img src=" ++ dq ++ js "p.png" ++ dq ++ js " alt=" ++ dq
      ++ js "A" ++ dq ++ js "B" ++ dq ++ js " class=" ++ dq
      ++ js "result-poster" ++ dq ++ js ">".
Proof. split; by vm_compute. Qed.

(** ** The spec's example *)


Example spec_example_tags_x :
  (applyFilters (tick (js "x") (loaded [showA; showB])) noFilters).2
  = [showB; showA].
Proof. by vm_compute. Qed.

Example spec_example_tags_x_y :
  (applyFilters (tick (js "y") (tick (js "x") (loaded [showA; showB])))
                noFilters).2
  = [showA].
Proof. by vm_compute. Qed.

Example spec_example_no_tags :
  map title (applyFilters (loaded [showA; showB]) noFilters).2
  = [js "B"; js "A"].
Proof. by vm_compute. Qed.

(** * Further properties of the script *)

(** ** Tags and their checkboxes *)

Lemma extractTags_elem t shows :
  t ∈ extractTags shows ↔ ∃ show, show ∈ shows ∧ t ∈ showTags show.
Proof.
  unfold extractTags. rewrite js_sort_elem, foldl_addShowTags_elem.
  split; [|auto]. intros [H|H]; [by apply elem_of_nil in H|done].
Qed.

Lemma extractTags_NoDup shows : NoDup (extractTags shows).
Proof.
  unfold extractTags. rewrite js_sort_perm.
  apply foldl_addShowTags_NoDup, NoDup_nil_2.
Qed.

Lemma str_le_antisym a b :
  str_compare a b ≠ Gt → str_compare b a ≠ Gt → a = b.
Proof.
  intros H1 H2. rewrite (str_compare_antisym a b) in H2.
  apply str_compare_eq. destruct (str_compare a b); simpl in *; done.
Qed.

(** Two lists in the order of [sort()] with the same elements, none twice,
    are the same list. *)
Lemma sorted_same_elements (l1 l2 : list jsstring) :
  StronglySorted (λ a b, str_compare a b ≠ Gt) l1 →
  StronglySorted (λ a b, str_compare a b ≠ Gt) l2 →
  NoDup l1 → NoDup l2 → (∀ x, x ∈ l1 ↔ x ∈ l2) → l1 = l2.
Proof.
  intros H1. revert l2.
  induction H1 as [|x l1 Hs1 IH Hx]; intros l2 H2 Hn1 Hn2 Hel.
  - destruct l2 as [|y l2]; [done|].
    assert (y ∈ []) as H by (apply Hel; left). by apply elem_of_nil in H.
  - destruct H2 as [|y l2 Hs2 Hy].
    { assert (x ∈ []) as H by (apply Hel; left). by apply elem_of_nil in H. }
    rewrite Forall_forall in Hx, Hy.
    apply NoDup_cons in Hn1 as [Hx1 Hn1]. apply NoDup_cons in Hn2 as [Hy2 Hn2].
    assert (x = y) as <-.
    { assert (Hxy : x ∈ y :: l2) by (apply Hel; left).
      assert (Hyx : y ∈ x :: l1) by (apply Hel; left).
      apply elem_of_cons in Hxy as [->|Hxy]; [done|].
      apply elem_of_cons in Hyx as [->|Hyx]; [done|].
      apply str_le_antisym; [by apply Hx|by apply Hy]. }
    f_equal. apply IH; try done. intros z. split; intros Hz.
    + assert (Hz' : z ∈ x :: l2) by (apply Hel; by right).
      apply elem_of_cons in Hz' as [->|Hz']; done.
    + assert (Hz' : z ∈ x :: l1) by (apply Hel; by right).
      apply elem_of_cons in Hz' as [->|Hz']; done.
Qed.

(** The tag list depends only on which shows the collection holds, not on
    their order nor on how often a show occurs. *)
Theorem extractTags_same_shows shows1 shows2 :
  (∀ show, show ∈ shows1 ↔ show ∈ shows2) →
  extractTags shows1 = extractTags shows2.
Proof.
  intros Hel. apply sorted_same_elements.
  - apply defaultSort_sorted.
  - apply defaultSort_sorted.
  - apply extractTags_NoDup.
  - apply extractTags_NoDup.
  - intros t. rewrite !extractTags_elem. split.
    + intros (show & Hin & Ht). exists show. split; [by apply Hel|done].
    + intros (show & Hin & Ht). exists show. split; [by apply Hel|done].
Qed.

Lemma extractTags_same_shows_witness :
  extractTags [showB; showA; showB] = extractTags [showA; showB].
Proof.
  apply extractTags_same_shows. intros show.
  rewrite !elem_of_cons, !elem_of_nil. tauto.
Defined.

Lemma filter_none {A} (P : A → Prop) `{!∀ x, Decision (P x)} (l : list A) :
  (∀ x, x ∈ l → ¬ P x) → filter P l = [].
Proof.
  induction l as [|x l IH]; intros Hno; [done|].
  rewrite filter_cons, decide_False by (apply Hno; left).
  apply IH. intros y Hy. apply Hno. by right.
Qed.

Lemma renderTagFilters_lookup_gen (tags : list jsstring)
    (m : gmap jsstring Checkbox) tag :
  foldl (λ m tag, <[tag := mkCheckbox false]> m) m tags !! tag
  = if decide (tag ∈ tags) then Some (mkCheckbox false) else m !! tag.
Proof.
  revert m. induction tags as [|t tags IH]; intros m; simpl.
  - done.
  - rewrite IH. destruct (decide (tag ∈ tags)) as [Hin|Hnin].
    + rewrite decide_True; [done|by right].
    + destruct (decide (t = tag)) as [->|Hne].
      * rewrite decide_True by left. apply lookup_insert_eq.
      * rewrite decide_False; [by apply lookup_insert_ne|].
        rewrite elem_of_cons. intros [->|?]; done.
Qed.

Lemma renderTagFilters_unticked st : selectedTags (renderTagFilters st) = [].
Proof.
  unfold selectedTags. apply filter_none. intros t Hin. simpl.
  unfold tagChecked. rewrite renderTagFilters_lookup_gen.
  by rewrite decide_True.
Qed.



(** ** Narrowing and widening the filters *)

Lemma applyFilters_elem st f show :
  show ∈ (applyFilters st f).2
  ↔ show ∈ allShows st
    ∧ keepShow (categoryValue f) (statusValue f) (toLowerCase (searchValue f))
               (selectedTags st) show = true.
Proof.
  unfold applyFilters; simpl.
  by rewrite js_sort_elem, list_elem_of_In, filter_In, <- list_elem_of_In.
Qed.

(** When the tag list comes from the shows, a tag ticked alone, with no
    other filter set, gives the shows that bear it, and there is one: no
    checkbox leads to the empty state. *)
Theorem tag_alone_selects st tag :
  uniqueTags st = extractTags (allShows st) →
  selectedTags st = [tag] →
  (∃ show, show ∈ (applyFilters st noFilters).2)
  ∧ ∀ show, show ∈ (applyFilters st noFilters).2
            ↔ show ∈ allShows st ∧ tag ∈ showTags show.
Proof.
  intros Hu Hsel.
  assert (Hiff : ∀ show, show ∈ (applyFilters st noFilters).2
                         ↔ show ∈ allShows st ∧ tag ∈ showTags show).
  { intros show. rewrite applyFilters_elem, keepShow_spec, Hsel. simpl. split.
    - intros (Hin & _ & _ & _ & Ht). split; [done|]. apply Ht. left.
    - intros [Hin Ht]. split_and!; auto.
      intros t ->%list_elem_of_singleton. done. }
  split; [|done].
  assert (Hin : tag ∈ selectedTags st) by (rewrite Hsel; left).
  unfold selectedTags in Hin. apply list_elem_of_filter in Hin as [_ Hin].
  rewrite Hu in Hin. apply extractTags_elem in Hin as (show & Hshow & Ht).
  exists show. by apply Hiff.
Qed.

Lemma tag_alone_selects_witness :
  ∃ show, show ∈ (applyFilters (tick (js "y") (loaded [showA; showB])) noFilters).2.
Proof.
  apply (proj1 (tag_alone_selects (tick (js "y") (loaded [showA; showB])) (js "y")
                  eq_refl ltac:(vm_compute; reflexivity))).
Defined.

(** Ticking further tags can only remove shows from the result. *)
Theorem more_ticks_narrow st1 st2 f show :
  allShows st1 = allShows st2 →
  (∀ tag, tag ∈ selectedTags st1 → tag ∈ selectedTags st2) →
  show ∈ (applyFilters st2 f).2 → show ∈ (applyFilters st1 f).2.
Proof.
  intros Hall Hsub. rewrite !applyFilters_elem, !keepShow_spec, Hall.
  intros (Hin & Hc & Hs & Hq & Ht). split_and!; try done.
  intros tag Htag. by apply Ht, Hsub.
Qed.

Lemma more_ticks_narrow_witness :
  showA ∈ (applyFilters (tick (js "x") (loaded [showA; showB])) noFilters).2.
Proof.
  apply (more_ticks_narrow (tick (js "x") (loaded [showA; showB]))
           (tick (js "y") (tick (js "x") (loaded [showA; showB]))) noFilters showA).
  - reflexivity.
  - intros tag Htag. apply list_elem_of_In. apply list_elem_of_In in Htag.
    vm_compute in Htag. vm_compute. tauto.
  - apply list_elem_of_In. vm_compute. tauto.
Defined.

Lemma ciSubstring_trans a b c :
  ciSubstring a b → ciSubstring b c → ciSubstring a c.
Proof.
  intros (p1 & q1 & H1) (p2 & q2 & H2). exists (p2 ++ p1), (q1 ++ q2).
  rewrite H2, H1. by rewrite <- !(assoc_L (++)).
Qed.

(** A search text that holds the earlier search text (letter case ignored)
    can only remove shows from the result: typing on narrows the list. *)
Theorem longer_search_narrows st f1 f2 show :
  categoryValue f1 = categoryValue f2 →
  statusValue f1 = statusValue f2 →
  ciSubstring (searchValue f1) (searchValue f2) →
  show ∈ (applyFilters st f2).2 → show ∈ (applyFilters st f1).2.
Proof.
  intros Hc Hs Hq. rewrite !applyFilters_elem, !keepShow_spec, Hc, Hs.
  intros (Hin & Hcat & Hst & Hsearch & Ht). split_and!; try done.
  destruct Hsearch as [Hnil|[H|[(d & Hd & H)|(n & Hn & H)]]].
  - left. destruct Hq as (pre & post & Hq). rewrite Hnil in Hq. simpl in Hq.
    symmetry in Hq. apply app_eq_nil in Hq as [_ Hq].
    apply app_eq_nil in Hq as [Hq _].
    by apply (proj1 (toLowerCase_nil _)) in Hq.
  - right; left. by eapply ciSubstring_trans.
  - right; right; left. exists d. split; [done|]. by eapply ciSubstring_trans.
  - right; right; right. exists n. split; [done|]. by eapply ciSubstring_trans.
Qed.

Lemma longer_search_narrows_witness :
  showA ∈ (applyFilters (stateOf [showA; showB])
                        (mkFilters (js "all") (js "all") [])).2.
Proof.
  apply (longer_search_narrows (stateOf [showA; showB])
           (mkFilters (js "all") (js "all") [])
           (mkFilters (js "all") (js "all") (js "a")) showA eq_refl eq_refl).
  - by exists [], (js "a").
  - apply list_elem_of_In. vm_compute. tauto.
Defined.

(** ** The order of the result *)

Lemma List_filter_sublist {A} (f : A → bool) (l : list A) :
  List.filter f l `sublist_of` l.
Proof.
  induction l as [|x l IH]; simpl; [constructor|].
  destruct (f x); by constructor.
Qed.

(** The result holds no show more often than the collection does, and the
    shows of one date stand in the result in the order they have in the
    collection: the sort keeps ties in place and [allShows] itself is not
    reordered. *)
Theorem applyFilters_ties st f :
  (applyFilters st f).2 ⊆+ allShows st
  ∧ (∀ k, filter (λ s, sortDate s = k) (applyFilters st f).2
          `sublist_of` allShows st)
  ∧ allShows (applyFilters st f).1 = allShows st.
Proof.
  unfold applyFilters; simpl. split_and!; [| |done].
  - rewrite js_sort_perm. apply sublist_submseteq, List_filter_sublist.
  - intros k. rewrite js_sort_stable.
    etrans; [apply sublist_filter|apply List_filter_sublist].
Qed.

(** ** Clearing the filters and loading the page *)

Lemma uncheckAll_lookup_gen (tags : list jsstring)
    (m : gmap jsstring Checkbox) tag :
  foldl (λ m tag, match m !! tag with
                  | Some _ => <[tag := mkCheckbox false]> m
                  | None => m
                  end) m tags !! tag
  = if decide (tag ∈ tags) then (λ _, mkCheckbox false) <$> (m !! tag)
    else m !! tag.
Proof.
  revert m. induction tags as [|t tags IH]; intros m; simpl; [done|].
  rewrite IH.
  assert (Hstep : match m !! t with
                  | Some _ => <[t := mkCheckbox false]> m
                  | None => m
                  end !! tag
                  = if decide (t = tag) then (λ _, mkCheckbox false) <$> (m !! tag)
                    else m !! tag).
  { destruct (decide (t = tag)) as [->|Hne].
    - destruct (m !! tag) eqn:E; [by rewrite lookup_insert_eq|by rewrite E].
    - destruct (m !! t); [by rewrite lookup_insert_ne|done]. }
  rewrite Hstep.
  destruct (decide (tag ∈ tags)) as [Hin|Hnin].
  - rewrite (decide_True (P := tag ∈ t :: tags)) by (apply elem_of_cons; auto).
    destruct (decide (t = tag)); [by destruct (m !! tag)|done].
  - destruct (decide (t = tag)) as [->|Hne].
    + by rewrite (decide_True (P := tag ∈ tag :: tags))
        by (apply elem_of_cons; auto).
    + rewrite (decide_False (P := tag ∈ t :: tags)); [done|].
      rewrite elem_of_cons. intros [->|?]; done.
Qed.

Lemma uncheckAll_selectedTags st : selectedTags (uncheckAll st) = [].
Proof.
  unfold selectedTags. apply filter_none. intros t Hin. simpl.
  unfold tagChecked. rewrite uncheckAll_lookup_gen, decide_True by done.
  by destruct (tagMap st !! t).
Qed.

(** Whatever was selected before, the clear-filters button brings back every
    show of the collection, newest first, with no tag ticked, and no
    checkbox is created or removed. *)
Theorem onClearFilters_all st :
  (onClearFilters st).2 ≡ₚ allShows st
  ∧ StronglySorted (λ a b, (sortDate b <= sortDate a)%Z) (onClearFilters st).2
  ∧ (onClearFilters st).1.2 = noFilters
  ∧ selectedTags (onClearFilters st).1.1 = []
  ∧ filteredCandidates (onClearFilters st).1.1 = (onClearFilters st).2
  ∧ ∀ tag, is_Some (tagMap (onClearFilters st).1.1 !! tag)
           ↔ is_Some (tagMap st !! tag).
Proof.
  unfold onClearFilters.
  pose proof (applyFilters_no_filter (uncheckAll st) (uncheckAll_selectedTags st))
    as Hperm.
  pose proof (applyFilters_sorted (uncheckAll st) noFilters) as Hsort.
  unfold noFilters in *.
  destruct (applyFilters (uncheckAll st) _) as [st' res] eqn:Hap. simpl in *.
  assert (Hst' : st' = mkState (allShows st) (uniqueTags st) res
                               (tagMap (uncheckAll st))).
  { unfold applyFilters in Hap. by injection Hap as <- <-. }
  split_and!; try done.
  - rewrite Hst'. apply uncheckAll_selectedTags.
  - by rewrite Hst'.
  - intros tag. rewrite Hst'. simpl. rewrite uncheckAll_lookup_gen.
    case_decide; [|done]. by rewrite fmap_is_Some.
Qed.

(** When the show data is found (in [window.state] first, else in the
    stored item, whose missing [shows] count as the empty list) and the tag
    container exists, the page starts with these shows, the tag list
    extracted from them, every tag unticked, and with the controls at
    "all", "all" and an empty search every loaded show is a candidate.
    When no data is found the state is left as it was and the error is
    reported. *)
Theorem initRecommendationPage_loaded d st :
  (∀ shows,
     loadShows d = inr shows → tagsContainer d = true →
     (initRecommendationPage d st).2 = None
     ∧ allShows (initRecommendationPage d st).1 = shows
     ∧ uniqueTags (initRecommendationPage d st).1 = extractTags shows
     ∧ selectedTags (initRecommendationPage d st).1 = []
     ∧ (applyFilters (initRecommendationPage d st).1 noFilters).2 ≡ₚ shows)
  ∧ (∀ e, loadShows d = inl e → initRecommendationPage d st = (st, Some e))
  ∧ (∀ shows, windowShows d = Some shows → loadShows d = inr shows)
  ∧ (windowShows d = None → stored d = NoItem → ∃ e, loadShows d = inl e)
  ∧ (windowShows d = None → stored d = Item None → loadShows d = inr []).
Proof.
  split_and!.
  - intros shows Hload Hc. unfold initRecommendationPage.
    rewrite Hload, Hc. simpl.
    set (st1 := extractUniqueTags _).
    pose proof (renderTagFilters_unticked st1) as Hsel.
    split_and!; try done.
    exact (applyFilters_no_filter _ Hsel).
  - intros e Hload. unfold initRecommendationPage. by rewrite Hload.
  - intros shows Hw. unfold loadShows. by rewrite Hw.
  - intros Hw Hs. unfold loadShows. rewrite Hw, Hs. eauto.
  - intros Hw Hs. unfold loadShows. by rewrite Hw, Hs.
Qed.

Lemma initRecommendationPage_loaded_witness :
  (applyFilters (initRecommendationPage storedPage initialState).1 noFilters).2
  ≡ₚ [showA; showB].
Proof.
  apply (proj1 (initRecommendationPage_loaded storedPage initialState)
           [showA; showB] eq_refl eq_refl).
Defined.

(** ** The network use of the assisted selector *)

(** The events that a run appends: none of them a request, or the request
    for the prompt first and no other request after it. *)
Lemma selectWithAI_events env candidates tr :
  ∃ v evs,
    selectWithAI env candidates tr = (inr v, tr ++ evs)
    ∧ (Forall (λ ev, isRequest ev = false) evs
       ∨ (callIssued env candidates
          ∧ ∃ evs', evs = NetworkRequest (requestOf env candidates) :: evs'
                    ∧ Forall (λ ev, isRequest ev = false) evs')).
Proof.
  unfold selectWithAI.
  destruct (aiToggle env) as [[]|] eqn:Htog;
    [|run_monad; exists (selectRandom (mathRandom env) candidates), [];
      rewrite app_nil_r; split; [done|left; constructor]..].
  destruct (maxPayloadBytes (config env)
            <? blobSize (buildPrompt (take (maxCandidates (config env)) candidates)))%Z
    eqn:Hsize.
  { run_monad. do 2 eexists. split; [reflexivity|]. left. by repeat constructor. }
  apply Z.ltb_ge in Hsize.
  destruct (decide (provider (config env) = js "hf")) as [Hprov|Hprov]; cycle 1.
  { run_monad. destruct (showToastDefined env); do 2 eexists;
      (split; [by rewrite <- ?(assoc_L (++))|]); left; by repeat constructor. }
  destruct (negb (truthy_str (hf_key (config env)))
            || bool_decide (hf_key (config env) = js "PUT_KEY_HERE")) eqn:Hkey.
  { run_monad. destruct (showToastDefined env); do 2 eexists;
      (split; [by rewrite <- ?(assoc_L (++))|]); left; by repeat constructor. }
  assert (Hcall : callIssued env candidates).
  { split_and!; try done. rewrite <- credentialMissing_test. by rewrite Hkey. }
  fold (promptOf env candidates).
  destruct (fetchHuggingFace_run env (promptOf env candidates) tr)
    as (out & Hrun & _).
  fold (requestOf env candidates) in Hrun.
  run_monad. rewrite Hrun.
  destruct out as [e|res].
  { destruct (showToastDefined env); do 2 eexists;
      (split; [by rewrite <- ?(assoc_L (++))|]); right; (split; [done|]);
      eexists; (split; [reflexivity|]); by repeat constructor. }
  destruct (truthy res && truthy (getProp (js "title") res)).
  - destruct (findByTitle (getProp (js "title") res) candidates) as [e|[show|]].
    + destruct (showToastDefined env); do 2 eexists;
        (split; [by rewrite <- ?(assoc_L (++))|]); right; (split; [done|]);
        eexists; (split; [reflexivity|]); by repeat constructor.
    + do 2 eexists. split; [reflexivity|]. right. split; [done|].
      eexists. split; [reflexivity|]. constructor.
    + do 2 eexists. split; [by rewrite <- ?(assoc_L (++))|]. right.
      split; [done|]. eexists. split; [reflexivity|]. by repeat constructor.
  - do 2 eexists. split; [by rewrite <- ?(assoc_L (++))|]. right.
    split; [done|]. eexists. split; [reflexivity|]. by repeat constructor.
Qed.

Lemma filter_requests_none (evs : list Event) :
  Forall (λ ev, isRequest ev = false) evs →
  filter (λ ev, isRequest ev = true) evs = [].
Proof.
  intros H. apply filter_none. rewrite Forall_forall in H.
  intros ev Hin Hev. specialize (H ev Hin). congruence.
Qed.

(** A run of the assisted selector only appends to the trace, sends at most
    one request (there is no retry), and that request goes to the model's
    URL with the key as bearer token and the prompt of the truncated
    candidate list as input. *)
Theorem selectWithAI_one_request env candidates tr :
  ∃ v evs,
    selectWithAI env candidates tr = (inr v, tr ++ evs)
    ∧ length (filter (λ ev, isRequest ev = true) evs) ≤ 1
    ∧ ∀ req, NetworkRequest req ∈ evs →
        url req = js "https://api-inference.huggingface.co/models/"
                  ++ model (config env)
        ∧ authorization req = js "Bearer " ++ hf_key (config env)
        ∧ inputs req
          = buildPrompt (take (maxCandidates (config env)) candidates).
Proof.
  destruct (selectWithAI_events env candidates tr)
    as (v & evs & Hrun & [Hnone|(_ & evs' & -> & Hnone)]);
    eexists v, _; (split; [exact Hrun|]).
  - rewrite (filter_requests_none _ Hnone). split; [simpl; lia|].
    intros req Hin. rewrite Forall_forall in Hnone. by specialize (Hnone _ Hin).
  - rewrite filter_cons, decide_True by done.
    rewrite (filter_requests_none _ Hnone). split; [simpl; lia|].
    intros req [[= ->]|Hin]%elem_of_cons; [done|].
    rewrite Forall_forall in Hnone. by specialize (Hnone _ Hin).
Qed.

(** With the configuration as shipped (the key still the placeholder) the
    assisted selector never sends a request and returns the random pick,
    whatever the service would answer. *)
Theorem selectWithAI_shipped_config env candidates tr :
  config env = AI_CONFIG →
  ∃ evs,
    selectWithAI env candidates tr
    = (inr (selectRandom (mathRandom env) candidates), tr ++ evs)
    ∧ Forall (λ ev, isRequest ev = false) evs.
Proof.
  intros Hcfg.
  assert (Hno : ¬ callIssued env candidates).
  { intros (_ & _ & _ & Hkey). apply Hkey. rewrite Hcfg. by right. }
  destruct (selectWithAI_events env candidates tr)
    as (v & evs & Hrun & [Hnone|(Hcall & _)]); [|done].
  exists evs. split; [|done].
  destruct (selectWithAI_run env candidates tr) as (v' & tr' & Hrun' & Hv & _).
  rewrite Hrun in Hrun'. injection Hrun' as -> _.
  destruct Hv as [->|(show & res & t & _ & [Hcall _] & _)]; [done|].
  by destruct Hno.
Qed.

Lemma selectWithAI_shipped_config_witness :
  ∃ evs,
    selectWithAI (mkEnv AI_CONFIG (Some true) true 0%Q
                    (fetch (answerEnv (titleObject (js "B")) (λ _, inl syntaxError)))
                    (λ _, inl syntaxError))
                 [showA; showB] []
    = (inr (selectRandom 0%Q [showA; showB]), [] ++ evs)
    ∧ Forall (λ ev, isRequest ev = false) evs.
Proof.
  apply (selectWithAI_shipped_config
           (mkEnv AI_CONFIG (Some true) true 0%Q
              (fetch (answerEnv (titleObject (js "B")) (λ _, inl syntaxError)))
              (λ _, inl syntaxError))
           [showA; showB] [] eq_refl).
Defined.



(** The errors of the call: a rejection named [AbortError] (the timer fired)
    becomes the error "AI request timeout", any other rejection is thrown
    on as it is, and a response that is not [ok] becomes an error that
    names the status; in each case one request was sent. *)
Theorem fetchHuggingFace_errors env prompt tr :
  (∀ e, fetch env (requestFor (config env) prompt) = inl e →
        fetchHuggingFace env prompt tr
        = (inl (if decide (exn_name e = js "AbortError")
                then Error (js "AI request timeout") else e),
           tr ++ [NetworkRequest (requestFor (config env) prompt)]))
  ∧ (∀ resp, fetch env (requestFor (config env) prompt) = inr resp →
             ok resp = false →
             fetchHuggingFace env prompt tr
             = (inl (Error (js "HTTP error! status: "
                              ++ decimalZ (httpStatus resp))),
                tr ++ [NetworkRequest (requestFor (config env) prompt)])).
Proof.
  split.
  - intros e He. unfold fetchHuggingFace. run_monad. rewrite He.
    by case_decide.
  - intros resp Hr Hok. unfold fetchHuggingFace. run_monad.
    by rewrite Hr, Hok.
Qed.

Lemma fetchHuggingFace_errors_witness :
  fetchHuggingFace
    (mkEnv configured (Some true) false 0%Q
       (λ _, inl (mkExn (js "AbortError") (js "The user aborted a request.")))
       (λ _, inl syntaxError))
    (js "p") []
  = (inl (Error (js "AI request timeout")),
     [] ++ [NetworkRequest (requestFor configured (js "p"))]).
Proof.
  apply (proj1 (fetchHuggingFace_errors
                  (mkEnv configured (Some true) false 0%Q
                     (λ _, inl (mkExn (js "AbortError")
                                  (js "The user aborted a request.")))
                     (λ _, inl syntaxError))
                  (js "p") [])
           (mkExn (js "AbortError") (js "The user aborted a request."))
           eq_refl).
Defined.

(** ** From the click to the card *)


(** The two test hooks store the filtered list in [filteredCandidates] and
    return no show or a show of that list; the assisted hook never
    throws. *)
Theorem test_hooks_pick_filtered env st f tr :
  (filteredCandidates (_recommendSelectRandom env st f).1 = (applyFilters st f).2
   ∧ ((_recommendSelectRandom env st f).2 = None
      ∨ ∃ show, (_recommendSelectRandom env st f).2 = Some show
                ∧ show ∈ (applyFilters st f).2))
  ∧ ∃ st' picked tr',
      _recommendSelectAI env st f tr = (inr (st', picked), tr')
      ∧ filteredCandidates st' = (applyFilters st f).2
      ∧ (picked = None ∨ ∃ show, picked = Some show
                                 ∧ show ∈ (applyFilters st f).2).
Proof.
  unfold _recommendSelectRandom, _recommendSelectAI.
  assert (Hfc : filteredCandidates (applyFilters st f).1 = (applyFilters st f).2)
    by done.
  destruct (applyFilters st f) as [st' cands]. simpl in *. split.
  - split; [done|]. apply selectRandom_None_or_elem.
  - destruct (selectWithAI_run env cands tr) as (v & tr' & Hrun & Hv & _).
    exists st', v, tr'. run_monad. rewrite Hrun. split_and!; [done|done|].
    destruct Hv as [->|(show & _ & _ & -> & _ & _ & _ & Hin & _)].
    + apply selectRandom_None_or_elem.
    + right. eauto.
Qed.

(** ** The prompt *)

Lemma appendLines_prefix prompt index l :
  prompt `prefix_of` appendLines prompt index l.
Proof.
  revert prompt index. induction l as [|show l IH]; intros prompt index; simpl.
  - done.
  - etrans; [|apply IH]. by apply prefix_app_r.
Qed.

Lemma appendLines_take prompt index k l :
  appendLines prompt index (take k l) `prefix_of` appendLines prompt index l.
Proof.
  revert prompt index k. induction l as [|show l IH]; intros prompt index k.
  - by destruct k.
  - destruct k as [|k]; simpl; [|apply IH].
    etrans; [|apply appendLines_prefix]. by apply prefix_app_r.
Qed.

Lemma blobSize_app a b : blobSize (a ++ b) = (blobSize a + blobSize b)%Z.
Proof. induction a as [|c a IH]; simpl; [done|]. rewrite IH. lia. Qed.

Lemma blobSize_nonneg a : (0 <= blobSize a)%Z.
Proof. induction a as [|c a IH]; simpl; [done|]. destruct (code c <? 128); lia. Qed.

Lemma blobSize_prefix a b : a `prefix_of` b → (blobSize a <= blobSize b)%Z.
Proof.
  intros [k ->]. rewrite blobSize_app. pose proof (blobSize_nonneg k). lia.
Qed.

(** The prompt of a truncated candidate list is the beginning of the prompt
    of the whole list, so it is never larger; every prompt begins with the
    instructions, which take 184 bytes. *)
Theorem buildPrompt_grows k candidates :
  buildPrompt (take k candidates) `prefix_of` buildPrompt candidates
  ∧ (blobSize (buildPrompt (take k candidates))
     <= blobSize (buildPrompt candidates))%Z
  ∧ promptHeader `prefix_of` buildPrompt candidates
  ∧ (184 <= blobSize (buildPrompt candidates))%Z.
Proof.
  split_and!.
  - apply appendLines_take.
  - apply blobSize_prefix, appendLines_take.
  - apply appendLines_prefix.
  - change 184%Z with (blobSize promptHeader).
    apply blobSize_prefix, appendLines_prefix.
Qed.

(** The line of a candidate holds its number, its title in full and at most
    153 code units of description: the whole description when it has at
    most 150 code units, else its first 150 code units and three dots. *)
Theorem promptLine_bounded index show :
  length (promptLine index show)
  ≤ length (decimal (index + 1)) + length (title show) + 158
  ∧ (length (descriptionText show) ≤ 150 →
     promptLine index show
     = decimal (index + 1) ++ js ". " ++ title show ++ js ": "
       ++ descriptionText show ++ nl)
  ∧ (150 < length (descriptionText show) →
     promptLine index show
     = decimal (index + 1) ++ js ". " ++ title show ++ js ": "
       ++ take 150 (descriptionText show) ++ js "..." ++ nl).
Proof.
  unfold promptLine.
  destruct (Nat.ltb_spec 150 (length (descriptionText show))) as [Hlong|Hshort].
  - split_and!; [|lia|intros _; by rewrite <- !(assoc_L (++))].
    rewrite !length_app, length_take.
    change (length (js ". ")) with 2. change (length (js ": ")) with 2.
    change (length (js "...")) with 3. change (length nl) with 1. lia.
  - split_and!; [|done|lia]. rewrite !length_app.
    change (length (js ". ")) with 2. change (length (js ": ")) with 2.
    change (length nl) with 1. lia.
Qed.

Lemma promptLine_bounded_witness :
  promptLine 0 showA = decimal 1 ++ js ". " ++ js "A" ++ js ": " ++ [] ++ nl.
Proof.
  apply (proj1 (proj2 (promptLine_bounded 0 showA))). simpl. lia.
Defined.

(** ** Escaping *)

Lemma escape_unit_inj c d r1 r2 :
  escape_unit c ++ r1 = escape_unit d ++ r2 → c = d ∧ r1 = r2.
Proof.
  unfold escape_unit. repeat case_decide; subst; simpl; intros Heq;
    by simplify_eq.
Qed.

Lemma htmlEscape_inj s1 s2 : htmlEscape s1 = htmlEscape s2 → s1 = s2.
Proof.
  unfold htmlEscape. revert s2.
  induction s1 as [|c s1 IH]; intros [|d s2]; simpl; try done.
  - unfold escape_unit. by repeat case_decide.
  - unfold escape_unit. by repeat case_decide.
  - intros [-> H]%escape_unit_inj. by rewrite (IH s2 H).
Qed.

Lemma htmlEscape_plain s : Forall plainChar s → htmlEscape s = s.
Proof.
  unfold htmlEscape. induction 1 as [|c s [Hm Ha] Hs IH]; simpl; [done|].
  rewrite IH. unfold markupChar in Hm. unfold escape_unit.
  repeat case_decide; subst; try done; tauto.
Qed.

Lemma htmlEscape_length s : length s ≤ length (htmlEscape s).
Proof.
  unfold htmlEscape. induction s as [|c s IH]; simpl; [done|].
  rewrite length_app.
  assert (1 ≤ length (escape_unit c)); [|lia].
  unfold escape_unit. repeat case_decide; simpl; lia.
Qed.

(** [escapeHtml] loses nothing and lets no markup through: different texts
    have different escaped forms, the escaped form holds none of the
    characters "<", ">", the double and the single quote, it is never
    shorter than the text, and a text without these characters and without
    "&" is left as it is. *)
Theorem escapeHtml_faithful s :
  (∀ s', escapeHtml s = escapeHtml s' → s = s')
  ∧ Forall (λ x, ¬ markupChar x) (escapeHtml s)
  ∧ length s ≤ length (escapeHtml s)
  ∧ (Forall plainChar s → escapeHtml s = s).
Proof.
  rewrite escapeHtml_htmlEscape. split_and!.
  - intros s'. rewrite escapeHtml_htmlEscape. apply htmlEscape_inj.
  - apply htmlEscape_clean.
  - apply htmlEscape_length.
  - apply htmlEscape_plain.
Qed.

Lemma escapeHtml_faithful_witness : escapeHtml (js "Dune 2") = js "Dune 2".
Proof.
  apply (proj2 (proj2 (proj2 (escapeHtml_faithful (js "Dune 2"))))).
  repeat constructor; vm_compute; intuition discriminate.
Defined.

(** ** The description on the card *)

Lemma splitRuns_nonempty b s : splitRuns b s ≠ [].
Proof.
  revert b. induction s as [|c s IH]; intros b; simpl; [done|].
  destruct (is_boundary c).
  - destruct b; [apply IH|done].
  - by destruct (splitRuns false s).
Qed.

Lemma splitRuns_piece s c rest :
  Forall (λ x, is_boundary x = false) s → is_boundary c = true →
  splitRuns false (s ++ c :: rest) = s :: splitRuns true rest.
Proof.
  intros Hs Hc. induction Hs as [|x s Hx Hs IH]; simpl.
  - by rewrite Hc.
  - by rewrite Hx, IH.
Qed.

Lemma splitRuns_after_run s :
  match s with [] => False | x :: _ => is_boundary x = false end →
  splitRuns true s = splitRuns false s.
Proof. destruct s as [|x s]; [done|]. simpl. by intros ->. Qed.

Lemma splitRuns_plain s :
  Forall (λ x, is_boundary x = false) s → splitRuns false s = [s].
Proof.
  induction 1 as [|x s Hx Hs IH]; simpl; [done|]. by rewrite Hx, IH.
Qed.

(** When the description starts with two non-empty stretches of text, each
    closed by one sentence mark, the card shows these two stretches, each
    followed by a full stop, and drops the rest; when both marks are full
    stops this is the beginning of the description.  A description without
    any sentence mark is shown whole. *)
Theorem cardDescription_two_sentences show s1 c1 s2 c2 rest :
  descriptionText show = s1 ++ c1 :: s2 ++ c2 :: rest →
  Forall (λ x, is_boundary x = false) s1 →
  Forall (λ x, is_boundary x = false) s2 →
  s2 ≠ [] →
  is_boundary c1 = true → is_boundary c2 = true →
  cardDescription show = s1 ++ js "." ++ s2 ++ js "."
  ∧ (c1 = "."%char → c2 = "."%char →
     cardDescription show `prefix_of` descriptionText show).
Proof.
  intros Hd H1 H2 Hne Hc1 Hc2.
  assert (Hcard : cardDescription show = s1 ++ js "." ++ s2 ++ js ".").
  { unfold cardDescription, splitSentences. rewrite Hd.
    rewrite (splitRuns_piece s1 c1) by done.
    rewrite splitRuns_after_run; cycle 1.
    { destruct s2 as [|x s2]; [done|]. simpl. by inversion H2. }
    rewrite (splitRuns_piece s2 c2) by done.
    pose proof (splitRuns_nonempty true rest) as Hrest.
    destruct (splitRuns true rest) as [|p ps]; [done|].
    simpl. by rewrite <- !(assoc_L (++)). }
  split; [done|]. intros -> ->. rewrite Hcard, Hd. exists rest.
  by rewrite <- !(assoc_L (++)).
Qed.

Lemma cardDescription_two_sentences_witness :
  cardDescription
    (mkShow (js "T") (js "movie") (js "done") TagsAbsent
            (Some (js "One. Two. Three")) None None None None None)
  = js "One" ++ js "." ++ js " Two" ++ js ".".
Proof.
  apply (proj1 (cardDescription_two_sentences
                  (mkShow (js "T") (js "movie") (js "done") TagsAbsent
                          (Some (js "One. Two. Three")) None None None None None)
                  (js "One") "." (js " Two") "." (js " Three") eq_refl
                  ltac:(repeat constructor) ltac:(repeat constructor)
                  ltac:(done) eq_refl eq_refl)).
Defined.

(** A description without any sentence mark, however long, is shown on the
    card as it is. *)
Theorem cardDescription_no_mark show :
  Forall (λ x, is_boundary x = false) (descriptionText show) →
  cardDescription show = descriptionText show.
Proof.
  intros H. unfold cardDescription, splitSentences.
  by rewrite (splitRuns_plain _ H).
Qed.

Lemma cardDescription_no_mark_witness :
  cardDescription
    (mkShow (js "T") (js "movie") (js "done") TagsAbsent
            None (Some (js "a quiet film")) None None None None)
  = js "a quiet film".
Proof.
  apply (cardDescription_no_mark
           (mkShow (js "T") (js "movie") (js "done") TagsAbsent
                   None (Some (js "a quiet film")) None None None None)).
  repeat constructor.
Defined.

(** ** The card *)

(** What [showResult] leaves on the page.  For no show the result panel is
    hidden and the empty-state panel shown, the markup and the detail
    button of an earlier card staying behind, hidden.  For a show the
    panels are switched the other way, the detail button is bound to this
    show, and the markup is the card: the poster image when
    [posterDataUrl], else [posterUrl], is not empty, with this source and
    the title as they are in its attributes; the heading with the escaped
    title; the paragraph with the escaped card description; the button.
    The markup does not depend on what the panel held before. *)
Theorem showResult_renders p show :
  showResult None p = mkPanels (resultHTML p) true false (detailTarget p)
  ∧ resultHidden (showResult (Some show) p) = false
  ∧ noResultsHidden (showResult (Some show) p) = true
  ∧ detailTarget (showResult (Some show) p) = Some show
  ∧ resultHTML (showResult (Some show) p)
    = indent
      ++ (if truthy_opt (posterDataUrl show)
          then js "<img src=" ++ dq ++ default [] (posterDataUrl show) ++ dq
               ++ js " alt=" ++ dq ++ title show ++ dq
               ++ js " class=" ++ dq ++ js "result-poster" ++ dq ++ js ">"
          else if truthy_opt (posterUrl show)
          then js "<img src=" ++ dq ++ default [] (posterUrl show) ++ dq
               ++ js " alt=" ++ dq ++ title show ++ dq
               ++ js " class=" ++ dq ++ js "result-poster" ++ dq ++ js ">"
          else [])
      ++ indent ++ js "<h3 class=" ++ dq ++ js "result-title" ++ dq
      ++ js ">" ++ htmlEscape (title show) ++ js "</h3>"
      ++ indent ++ js "<p class=" ++ dq ++ js "result-description" ++ dq
      ++ js ">" ++ htmlEscape (cardDescription show) ++ js "</p>"
      ++ indent ++ buttonMarkup ++ nl ++ js "  "
  ∧ ∀ p', resultHTML (showResult (Some show) p')
          = resultHTML (showResult (Some show) p).
Proof.
  split_and!; try done.
  simpl. unfold cardMarkup, titleMarkup, descriptionMarkup, posterMarkup,
    posterOf, orElse.
  rewrite !escapeHtml_htmlEscape.
  destruct (posterDataUrl show) as [[|c s]|], (posterUrl show) as [[|c' s']|];
    simpl; by rewrite <- ?(assoc_L (++)).
Qed.
